(** * shrub: the recursive-descent parser of [src/parse.ts]

    A shallow embedding of the parser (token cursor, comma-separated lists,
    string unescaping, pattern grammar, term grammar, top level) together
    with the properties its specification states about it. *)

From Stdlib Require Import List String Ascii Bool Arith ZArith Lia.
Import ListNotations.

Set Implicit Arguments.
Set Warnings "-register-all".

Local Open Scope string_scope.
Local Open Scope list_scope.

(** ** Token kinds and tokens *)

(** Modelled from the spec: the token-kind enumeration [Type] exported by
    [./Lexer], which is not part of the sources; the constructors are the
    kinds [parse.ts] refers to as [TT.xxx]. *)
Inductive TT : Set :=
| semi | letKw | matchKw | ident | bareAtom | quotedAtom | string_
| lParen | rParen | lBracket | rBracket | lCurly | rCurly
| comma | colon | amp | eq_ | arrow | wildcard.

Scheme Equality for TT.

(** Modelled from the spec: a token carries a type tag and its raw text. *)
Record Token : Set := mkToken { type : TT; text : string }.

(** [xs.includes(x)] on an array of token kinds. *)
Definition includes (xs : list TT) (x : TT) : bool := existsb (TT_beq x) xs.

(** ** AST (lines 24-150 of [parse.ts]) *)

Inductive Pattern : Set :=
| TreePattern (functor : string) (children : list Pattern)
| WildcardPattern
| VarPattern (text : string)
| AsPattern (name : string) (pattern : Pattern)
| ConsPattern (head tail : Pattern)
| StringPattern (text : string)
| ListPattern (elts : list Pattern).

Inductive Term : Set :=
| TreeTerm (functor : string) (children : list Term)
| VarTerm (text : string)
| AppTerm (opName : string) (rands : list Term)
| ConsTerm (head tail : Term)
| StringTerm (text : string)
| ListTerm (elts : list Term)
| MatchTerm (terms : list Term) (clauses : list MatchClause)
with MatchClause : Set :=
| mkMatchClause (patterns : list Pattern) (body : Term).

Record Def : Set := mkDef { name : string; patterns : list Pattern; body : Term }.

Inductive Item : Set :=
| ItemDef (d : Def)
| ItemTerm (t : Term).

(** ** JavaScript string primitives used by [getStringText] *)

Definition squote : ascii := "039"%char.
Definition dquote : ascii := "034"%char.
Definition backslash : ascii := "092"%char.

(** [s.substring(a, b)]: both indices are clamped to [0, s.length] and
    swapped when the first exceeds the second. *)
Definition js_substring (s : string) (a b : Z) : string :=
  let len := Z.of_nat (String.length s) in
  let clamp := fun i => Z.min (Z.max i 0) len in
  let lo := Z.min (clamp a) (clamp b) in
  let hi := Z.max (clamp a) (clamp b) in
  String.substring (Z.to_nat lo) (Z.to_nat (hi - lo)) s.

(** [s.startsWith(p)]. *)
Definition startsWith (s p : string) : bool := String.prefix p s.

(** [s.replace(/\\q/g, q)] for a quote character [q]: every occurrence of a
    backslash followed by [q], scanned left to right, becomes [q]. *)
Fixpoint replaceEscaped (q : ascii) (s : string) : string :=
  match s with
  | EmptyString => EmptyString
  | String c rest =>
    match rest with
    | String d rest' =>
      if (Ascii.eqb c backslash && Ascii.eqb d q)%bool
      then String q (replaceEscaped q rest')
      else String c (replaceEscaped q rest)
    | EmptyString => String c EmptyString
    end
  end.

(** [getStringText], lines 406-413. *)
Definition getStringText (text : string) : string :=
  let content := js_substring text 1 (Z.of_nat (String.length text) - 1) in
  if startsWith text (String squote EmptyString)
  then replaceEscaped squote content
  else replaceEscaped dquote content.

(** ** The token cursor and the parser monad *)

(** Modelled from the spec: the cursor [Lexer] of [./Lexer] is the list of
    the tokens not consumed yet. *)
Definition Lexer : Set := list Token.

(** The single error kind of a parse, with what raised it: the cursor
    ([expect] on a token outside the allowed set, or any access past the
    end of the input, where [found] is [None]; modelled from the spec), or
    one of the two dispatch rules ([throw new Error('expected a term')],
    [throw new Error('expected a pattern')]). *)
Inductive SyntaxError : Set :=
| UnexpectedToken (allowed : list TT) (found : option Token)
| ExpectedATerm
| ExpectedAPattern.

(** The outcome of running a rule on a cursor: a value and the advanced
    cursor, a thrown error, or (of the model only) exhausted fuel. *)
Inductive Result (A : Type) : Type :=
| Ok (a : A) (l : Lexer)
| Throw (e : SyntaxError)
| OutOfFuel.

Arguments Throw {A} e.
Arguments OutOfFuel {A}.

Definition Parser (A : Type) : Type := Lexer -> Result A.

Definition ret {A} (a : A) : Parser A := fun l => Ok a l.
Definition throw {A} (e : SyntaxError) : Parser A := fun _ => Throw e.
Definition outOfFuel {A} : Parser A := fun _ => OutOfFuel.
Definition bind {A B} (m : Parser A) (k : A -> Parser B) : Parser B :=
  fun l => match m l with
           | Ok a l' => k a l'
           | Throw e => Throw e
           | OutOfFuel => OutOfFuel
           end.

Notation "x <- m ;; k" := (bind m (fun x => k))
  (at level 61, m at next level, right associativity).
Notation "m ;; k" := (bind m (fun _ => k))
  (at level 61, right associativity).

(** Modelled from the spec: [hasMore], [peek], [pop] and [expect] of the
    token cursor (section 4.1); access past the end is a syntax error. *)
Definition hasMore : Parser bool :=
  fun l => Ok (match l with [] => false | _ :: _ => true end) l.

Definition peek : Parser Token :=
  fun l => match l with
           | [] => Throw (UnexpectedToken [] None)
           | t :: _ => Ok t l
           end.

Definition pop : Parser Token :=
  fun l => match l with
           | [] => Throw (UnexpectedToken [] None)
           | t :: l' => Ok t l'
           end.

Definition expect (allowed : list TT) : Parser Token :=
  fun l => match l with
           | [] => Throw (UnexpectedToken allowed None)
           | t :: l' => if includes allowed (type t) then Ok t l'
                        else Throw (UnexpectedToken allowed (Some t))
           end.

(** [l.hasMore() && l.peek().type === ty] *)
Definition hasMoreAndPeekIs (ty : TT) : Parser bool :=
  more <- hasMore ;;
  if more then (tok <- peek ;; ret (TT_beq (type tok) ty)) else ret false.

(** [!l.hasMore() || stopSet.includes(l.peek().type)] *)
Definition exhaustedOrStop (stopSet : list TT) : Parser bool :=
  more <- hasMore ;;
  if negb more then ret true
  else (tok <- peek ;; ret (includes stopSet (type tok))).

(** ** [parseCommaSep], lines 380-404 *)

(** The [while (l.hasMore())] loop, [elts] being the array built so far. *)
Fixpoint parseCommaSep_while {T} (fuel : nat) (parseElt : Parser T)
         (stopSet : list TT) (elts : list T) : Parser (list T) :=
  match fuel with
  | O => outOfFuel
  | S fuel' =>
    more <- hasMore ;;
    if negb more then ret elts else
    tok <- peek ;;
    if includes stopSet (type tok) then ret elts else
    expect [comma] ;;
    stop <- exhaustedOrStop stopSet ;;
    if stop then ret elts else
    x <- parseElt ;;
    parseCommaSep_while fuel' parseElt stopSet (elts ++ [x])
  end.

Definition parseCommaSep {T} (fuel : nat) (parseElt : Parser T)
           (stopSet : list TT) : Parser (list T) :=
  stop <- exhaustedOrStop stopSet ;;
  if stop then ret [] else
  x <- parseElt ;;
  parseCommaSep_while fuel parseElt stopSet [x].

(** ** The [:] loop shared by [parseTerm] and [parsePattern]

    [while (l.hasMore() && l.peek().type === TT.colon)
       { l.pop(); acc = cons(acc, parseTail(l)) }] *)
Fixpoint cons_while {A} (fuel : nat) (parseTail : Parser A)
         (mk : A -> A -> A) (acc : A) : Parser A :=
  match fuel with
  | O => outOfFuel
  | S fuel' =>
    c <- hasMoreAndPeekIs colon ;;
    if c then
      pop ;;
      tail <- parseTail ;;
      cons_while fuel' parseTail mk (mk acc tail)
    else ret acc
  end.

(** ** Pattern grammar, lines 295-378 *)

Fixpoint parsePattern (fuel : nat) : Parser Pattern :=
  match fuel with
  | O => outOfFuel
  | S n =>
    pat <- parsePattern1 n ;;
    cons_while n (parsePattern n) ConsPattern pat
  end

with parsePattern1 (fuel : nat) : Parser Pattern :=
  match fuel with
  | O => outOfFuel
  | S n =>
    peeked <- peek ;;
    if includes [bareAtom; quotedAtom] (type peeked) then
      parseTreePattern n
    else if TT_beq (type peeked) wildcard then
      pop ;; ret WildcardPattern
    else if TT_beq (type peeked) ident then
      parseVarOrAsPattern n
    else if TT_beq (type peeked) string_ then
      tok <- pop ;; ret (StringPattern (getStringText (text tok)))
    else if TT_beq (type peeked) lBracket then
      pop ;;
      elts <- parseCommaSep n (parsePattern n) [rBracket] ;;
      expect [rBracket] ;;
      ret (ListPattern elts)
    else if TT_beq (type peeked) lParen then
      pop ;;
      inner <- parsePattern n ;;
      expect [rParen] ;;
      ret inner
    else throw ExpectedAPattern
  end

with parseTreePattern (fuel : nat) : Parser Pattern :=
  match fuel with
  | O => outOfFuel
  | S n =>
    start <- expect [bareAtom; quotedAtom] ;;
    let text_ := if TT_beq (type start) quotedAtom
                 then getStringText (text start) else text start in
    paren <- hasMoreAndPeekIs lParen ;;
    children <- (if paren then
                   pop ;;
                   cs <- parseCommaSep n (parsePattern n) [rParen] ;;
                   expect [rParen] ;;
                   ret cs
                 else ret []) ;;
    ret (TreePattern text_ children)
  end

with parseVarOrAsPattern (fuel : nat) : Parser Pattern :=
  match fuel with
  | O => outOfFuel
  | S n =>
    tok <- expect [ident] ;;
    let text_ := text tok in
    at_ <- hasMoreAndPeekIs amp ;;
    if at_ then
      pop ;;
      p <- parsePattern n ;;
      ret (AsPattern text_ p)
    else ret (VarPattern text_)
  end.

(** ** Term grammar, lines 194-293 *)

Fixpoint parseTerm (fuel : nat) : Parser Term :=
  match fuel with
  | O => outOfFuel
  | S n =>
    term <- parseTerm1 n ;;
    cons_while n (parseTerm n) ConsTerm term
  end

with parseTerm1 (fuel : nat) : Parser Term :=
  match fuel with
  | O => outOfFuel
  | S n =>
    peeked <- peek ;;
    if includes [bareAtom; quotedAtom; ident] (type peeked) then
      parseTreeOrVarOrApp n
    else if TT_beq (type peeked) string_ then
      tok <- pop ;; ret (StringTerm (getStringText (text tok)))
    else if TT_beq (type peeked) lBracket then
      pop ;;
      elts <- parseCommaSep n (parseTerm n) [rBracket] ;;
      expect [rBracket] ;;
      ret (ListTerm elts)
    else if TT_beq (type peeked) lParen then
      pop ;;
      inner <- parseTerm n ;;
      expect [rParen] ;;
      ret inner
    else if TT_beq (type peeked) matchKw then
      parseMatchTerm n
    else throw ExpectedATerm
  end

with parseTreeOrVarOrApp (fuel : nat) : Parser Term :=
  match fuel with
  | O => outOfFuel
  | S n =>
    start <- expect [bareAtom; quotedAtom; ident] ;;
    let text_ := if TT_beq (type start) quotedAtom
                 then getStringText (text start) else text start in
    paren <- hasMoreAndPeekIs lParen ;;
    terms <- (if paren then
                pop ;;
                ts <- parseCommaSep n (parseTerm n) [rParen] ;;
                expect [rParen] ;;
                ret ts
              else ret []) ;;
    if TT_beq (type start) ident then
      if Nat.ltb 0 (List.length terms)
      then ret (AppTerm text_ terms)
      else ret (VarTerm text_)
    else ret (TreeTerm text_ terms)
  end

with parseMatchTerm (fuel : nat) : Parser Term :=
  match fuel with
  | O => outOfFuel
  | S n =>
    expect [matchKw] ;;
    terms <- parseCommaSep n (parseTerm n) [lCurly] ;;
    expect [lCurly] ;;
    clauses <- parseCommaSep n (parseMatchClause n) [rCurly] ;;
    expect [rCurly] ;;
    ret (MatchTerm terms clauses)
  end

with parseMatchClause (fuel : nat) : Parser MatchClause :=
  match fuel with
  | O => outOfFuel
  | S n =>
    pats <- parseCommaSep n (parsePattern n) [arrow] ;;
    expect [arrow] ;;
    body_ <- parseTerm n ;;
    ret (mkMatchClause pats body_)
  end.

(** ** Top level, lines 152-192 *)

Definition parseDef (fuel : nat) : Parser Def :=
  expect [letKw] ;;
  nameTok <- expect [ident] ;;
  paren <- hasMoreAndPeekIs lParen ;;
  pats <- (if paren then
             pop ;;
             ps <- parseCommaSep fuel (parsePattern fuel) [rParen] ;;
             expect [rParen] ;;
             ret ps
           else ret []) ;;
  expect [eq_] ;;
  body_ <- parseTerm fuel ;;
  ret {| name := text nameTok; patterns := pats; body := body_ |}.

Definition parseItem (fuel : nat) : Parser Item :=
  peeked <- peek ;;
  if TT_beq (type peeked) letKw then
    d <- parseDef fuel ;; ret (ItemDef d)
  else
    t <- parseTerm fuel ;; ret (ItemTerm t).

(** The [while (l.hasMore())] loop of [parseProgram]. *)
Fixpoint parseProgram_while (fuel : nat) (parseItem_ : Parser Item)
         (items : list Item) : Parser (list Item) :=
  match fuel with
  | O => outOfFuel
  | S fuel' =>
    more <- hasMore ;;
    if more then
      item <- parseItem_ ;;
      expect [semi] ;;
      parseProgram_while fuel' parseItem_ (items ++ [item])
    else ret items
  end.

Definition parseProgram_fuel (fuel : nat) : Parser (list Item) :=
  parseProgram_while fuel (parseItem fuel) [].

(** Fuel that lets every rule run to completion on [l]
    (see [parseProgram_not_OutOfFuel]). *)
Definition fuel_for (l : Lexer) : nat := 5 * List.length l + 5.

Definition parseProgram (l : Lexer) : Result (list Item) :=
  parseProgram_fuel (fuel_for l) l.

(** ** Vocabulary of the statements *)

(** The kind of the lookahead token, as the guards of the rules test it. *)
Definition next_is (ty : TT) (l : Lexer) : bool :=
  match l with
  | [] => false
  | t :: _ => TT_beq (type t) ty
  end.

(** The input is exhausted or its next token is in the stop set. *)
Definition at_stop (stopSet : list TT) (l : Lexer) : bool :=
  match l with
  | [] => true
  | t :: _ => includes stopSet (type t)
  end.

(** The functor or variable text a start token stands for. *)
Definition start_text (start : Token) : string :=
  if TT_beq (type start) quotedAtom
  then getStringText (text start) else text start.

(** [res_le r r']: [r'] is [r], or [r] ran out of fuel. *)
Definition res_le {A} (r r' : Result A) : Prop := r = OutOfFuel \/ r = r'.

Definition par_le {A} (p q : Parser A) : Prop := forall l, res_le (p l) (q l).

(** [Good N p]: on every cursor of at most [N] tokens, [p] finishes, and
    when it returns, the cursor it leaves is a suffix of the one it got. *)
Definition Good {A} (N : nat) (p : Parser A) : Prop :=
  forall l, List.length l <= N ->
    match p l with
    | Ok _ l' => exists consumed, l = consumed ++ l'
    | Throw _ => True
    | OutOfFuel => False
    end.

(** [sep_elts parseElt stopSet l xs l']: from [l] the cursor reads
    [, x1 , x2 ... , xn], each element by [parseElt], none of them starting
    at a stop token, and arrives at [l']. *)
Inductive sep_elts {T} (parseElt : Parser T) (stopSet : list TT)
  : Lexer -> list T -> Lexer -> Prop :=
| sep_nil l : sep_elts parseElt stopSet l [] l
| sep_cons c l1 x l2 xs l' :
    type c = comma ->
    at_stop stopSet l1 = false ->
    parseElt l1 = Ok x l2 ->
    sep_elts parseElt stopSet l2 xs l' ->
    sep_elts parseElt stopSet (c :: l1) (x :: xs) l'.

(** [terminated_items n l items l']: from [l] the cursor reads the items
    [items] in this order, each by [parseItem n] and each followed by a
    statement terminator, and arrives at [l']. *)
Inductive terminated_items (n : nat) : Lexer -> list Item -> Lexer -> Prop :=
| ti_nil l : terminated_items n l [] l
| ti_cons l item s l1 items l' :
    parseItem n l = Ok item (s :: l1) ->
    type s = semi ->
    terminated_items n l1 items l' ->
    terminated_items n l (item :: items) l'.

(** The quote whose escape [getStringText] undoes in a text that starts
    with [c]. *)
Definition quote_of (c : ascii) : ascii :=
  if Ascii.eqb c squote then squote else dquote.

(** Token streams of the examples. *)
Definition tk (ty : TT) (s : string) : Token := mkToken ty s.

(** [f ( )] *)
Definition toks_call_no_args : Lexer :=
  [tk ident "f"; tk lParen "("; tk rParen ")"].

(** [f ( 1 , 2 )] *)
Definition toks_call_two_args : Lexer :=
  [tk ident "f"; tk lParen "("; tk bareAtom "1"; tk comma ",";
   tk bareAtom "2"; tk rParen ")"].

(** [cons ( 1 , nil )], as a term and as a pattern *)
Definition toks_atom_call : Lexer :=
  [tk bareAtom "cons"; tk lParen "("; tk bareAtom "1"; tk comma ",";
   tk bareAtom "nil"; tk rParen ")"].

(** [let f ( ) = x] and [let f = x] *)
Definition toks_def_empty_parens : Lexer :=
  [tk letKw "let"; tk ident "f"; tk lParen "("; tk rParen ")"; tk eq_ "=";
   tk ident "x"].

Definition toks_def_no_parens : Lexer :=
  [tk letKw "let"; tk ident "f"; tk eq_ "="; tk ident "x"].

(** [let id ( x ) = x] *)
Definition toks_def_id : Lexer :=
  [tk letKw "let"; tk ident "id"; tk lParen "("; tk ident "x"; tk rParen ")";
   tk eq_ "="; tk ident "x"].

(** [match { }] *)
Definition toks_match_no_subject : Lexer :=
  [tk matchKw "match"; tk lCurly "{"; tk rCurly "}"].

(** [a , b , )] *)
Definition toks_trailing_comma : Lexer :=
  [tk bareAtom "a"; tk comma ","; tk bareAtom "b"; tk comma ",";
   tk rParen ")"].


(** [x @ p : q] *)
Definition toks_as_cons : Lexer :=
  [tk ident "x"; tk amp "@"; tk bareAtom "p"; tk colon ":"; tk ident "q"].

(** [a : b], with no terminator, and [a : b ;] *)
Definition toks_unterminated : Lexer :=
  [tk bareAtom "a"; tk colon ":"; tk bareAtom "b"].

Definition toks_terminated : Lexer :=
  toks_unterminated ++ [tk semi ";"].

(** The raw text of the double-quoted token with the escape of the other
    quote inside, and its body. *)
Definition mismatched_body : string :=
  String "a" (String backslash (String squote (String "b" EmptyString))).

Definition mismatched_text : string :=
  String dquote (mismatched_body ++ String dquote EmptyString)%string.

(** [Good1 N p]: as [Good N p], and when [p] returns it has consumed at
    least one token. *)
Definition Good1 {A} (N : nat) (p : Parser A) : Prop :=
  forall l, List.length l <= N ->
    match p l with
    | Ok _ l' => exists t consumed, l = t :: consumed ++ l'
    | Throw _ => True
    | OutOfFuel => False
    end.

(** [Local p]: when [p] returns in front of a token, its result depends
    only on the tokens it consumed and on that token, not on what comes
    after it. *)
Definition Local {A} (p : Parser A) : Prop :=
  forall l a l', p l = Ok a l' ->
    exists consumed,
      l = consumed ++ l' /\
      forall t r r', l' = t :: r ->
                     p (consumed ++ t :: r') = Ok a (t :: r').

(** The token kinds [parseTerm1] and [parsePattern1] dispatch on. *)
Definition term_starts : list TT :=
  [bareAtom; quotedAtom; ident; string_; lBracket; lParen; matchKw].

Definition pattern_starts : list TT :=
  [bareAtom; quotedAtom; wildcard; ident; string_; lBracket; lParen].


(** [let g ( f ( x ) ) = x] *)
Definition toks_def_nested_call : Lexer :=
  [tk letKw "let"; tk ident "g"; tk lParen "("; tk ident "f"; tk lParen "(";
   tk ident "x"; tk rParen ")"; tk rParen ")"; tk eq_ "="; tk ident "x"].

(** [a ; b] with a following [)] where a terminator is wanted *)
Definition toks_bad_terminator : Lexer :=
  [tk bareAtom "a"; tk semi ";"; tk bareAtom "b"; tk rParen ")"].

(** ** The cursor guards *)

Lemma TT_beq_refl (x : TT) : TT_beq x x = true.
Proof. destruct x; reflexivity. Qed.

Lemma TT_beq_eq (x y : TT) : TT_beq x y = true <-> x = y.
Proof.
  split; [apply internal_TT_dec_bl | intros ->; apply TT_beq_refl].
Qed.

Lemma hasMoreAndPeekIs_eq (ty : TT) (l : Lexer) :
  hasMoreAndPeekIs ty l = Ok (next_is ty l) l.
Proof. destruct l; reflexivity. Qed.

Lemma exhaustedOrStop_eq (stopSet : list TT) (l : Lexer) :
  exhaustedOrStop stopSet l = Ok (at_stop stopSet l) l.
Proof. destruct l; reflexivity. Qed.

Lemma bind_Ok_inv {A B} (m : Parser A) (k : A -> Parser B) l b l2 :
  bind m k l = Ok b l2 ->
  exists a l1, m l = Ok a l1 /\ k a l1 = Ok b l2.
Proof.
  unfold bind. destruct (m l) as [a l1| |]; try discriminate.
  intros H. exists a, l1. auto.
Qed.

Lemma bind_Ok {A B} (m : Parser A) (k : A -> Parser B) l a l1 :
  m l = Ok a l1 -> bind m k l = k a l1.
Proof. unfold bind. intros ->. reflexivity. Qed.

Lemma bind_Throw {A B} (m : Parser A) (k : A -> Parser B) l e :
  m l = Throw e -> bind m k l = Throw e.
Proof. unfold bind. intros ->. reflexivity. Qed.

(** ** One-step unfoldings of the rules *)

Lemma parsePattern_S n :
  parsePattern (S n) =
  (pat <- parsePattern1 n ;; cons_while n (parsePattern n) ConsPattern pat).
Proof. reflexivity. Qed.

Lemma parsePattern1_S n :
  parsePattern1 (S n) =
  (peeked <- peek ;;
   if includes [bareAtom; quotedAtom] (type peeked) then
     parseTreePattern n
   else if TT_beq (type peeked) wildcard then
     pop ;; ret WildcardPattern
   else if TT_beq (type peeked) ident then
     parseVarOrAsPattern n
   else if TT_beq (type peeked) string_ then
     tok <- pop ;; ret (StringPattern (getStringText (text tok)))
   else if TT_beq (type peeked) lBracket then
     pop ;;
     elts <- parseCommaSep n (parsePattern n) [rBracket] ;;
     expect [rBracket] ;;
     ret (ListPattern elts)
   else if TT_beq (type peeked) lParen then
     pop ;;
     inner <- parsePattern n ;;
     expect [rParen] ;;
     ret inner
   else throw ExpectedAPattern).
Proof. reflexivity. Qed.

Lemma parseTreePattern_S n :
  parseTreePattern (S n) =
  (start <- expect [bareAtom; quotedAtom] ;;
   paren <- hasMoreAndPeekIs lParen ;;
   children <- (if paren then
                  pop ;;
                  cs <- parseCommaSep n (parsePattern n) [rParen] ;;
                  expect [rParen] ;;
                  ret cs
                else ret []) ;;
   ret (TreePattern (start_text start) children)).
Proof. reflexivity. Qed.

Lemma parseVarOrAsPattern_S n :
  parseVarOrAsPattern (S n) =
  (tok <- expect [ident] ;;
   at_ <- hasMoreAndPeekIs amp ;;
   if at_ then
     pop ;;
     p <- parsePattern n ;;
     ret (AsPattern (text tok) p)
   else ret (VarPattern (text tok))).
Proof. reflexivity. Qed.

Lemma parseTerm_S n :
  parseTerm (S n) =
  (term <- parseTerm1 n ;; cons_while n (parseTerm n) ConsTerm term).
Proof. reflexivity. Qed.

Lemma parseTerm1_S n :
  parseTerm1 (S n) =
  (peeked <- peek ;;
   if includes [bareAtom; quotedAtom; ident] (type peeked) then
     parseTreeOrVarOrApp n
   else if TT_beq (type peeked) string_ then
     tok <- pop ;; ret (StringTerm (getStringText (text tok)))
   else if TT_beq (type peeked) lBracket then
     pop ;;
     elts <- parseCommaSep n (parseTerm n) [rBracket] ;;
     expect [rBracket] ;;
     ret (ListTerm elts)
   else if TT_beq (type peeked) lParen then
     pop ;;
     inner <- parseTerm n ;;
     expect [rParen] ;;
     ret inner
   else if TT_beq (type peeked) matchKw then
     parseMatchTerm n
   else throw ExpectedATerm).
Proof. reflexivity. Qed.

Lemma parseTreeOrVarOrApp_S n :
  parseTreeOrVarOrApp (S n) =
  (start <- expect [bareAtom; quotedAtom; ident] ;;
   paren <- hasMoreAndPeekIs lParen ;;
   terms <- (if paren then
               pop ;;
               ts <- parseCommaSep n (parseTerm n) [rParen] ;;
               expect [rParen] ;;
               ret ts
             else ret []) ;;
   if TT_beq (type start) ident then
     if Nat.ltb 0 (List.length terms)
     then ret (AppTerm (start_text start) terms)
     else ret (VarTerm (start_text start))
   else ret (TreeTerm (start_text start) terms)).
Proof. reflexivity. Qed.

Lemma parseMatchTerm_S n :
  parseMatchTerm (S n) =
  (expect [matchKw] ;;
   terms <- parseCommaSep n (parseTerm n) [lCurly] ;;
   expect [lCurly] ;;
   clauses <- parseCommaSep n (parseMatchClause n) [rCurly] ;;
   expect [rCurly] ;;
   ret (MatchTerm terms clauses)).
Proof. reflexivity. Qed.

Lemma parseMatchClause_S n :
  parseMatchClause (S n) =
  (pats <- parseCommaSep n (parsePattern n) [arrow] ;;
   expect [arrow] ;;
   body_ <- parseTerm n ;;
   ret (mkMatchClause pats body_)).
Proof. reflexivity. Qed.

(** ** More fuel never changes a result *)

Section FuelOrder.
Context {A B : Type}.

Lemma res_le_refl (r : Result A) : res_le r r.
Proof. right; reflexivity. Qed.

Lemma par_le_refl (p : Parser A) : par_le p p.
Proof. intro l; apply res_le_refl. Qed.

Lemma par_le_trans (p q r : Parser A) :
  par_le p q -> par_le q r -> par_le p r.
Proof.
  intros H1 H2 l. destruct (H1 l) as [E|E]; [left; exact E|].
  rewrite E. apply H2.
Qed.

Lemma outOfFuel_le (p : Parser A) : par_le outOfFuel p.
Proof. intro l; left; reflexivity. Qed.

Lemma bind_le (m m' : Parser A) (k k' : A -> Parser B) :
  par_le m m' -> (forall a, par_le (k a) (k' a)) ->
  par_le (bind m k) (bind m' k').
Proof.
  intros Hm Hk l. unfold bind.
  destruct (Hm l) as [E|E]; rewrite E; [left; reflexivity|].
  destruct (m' l) as [a l1| |]; [apply Hk | right; reflexivity | left; reflexivity].
Qed.

Lemma if_le (b : bool) (p p' q q' : Parser A) :
  par_le p p' -> par_le q q' ->
  par_le (if b then p else q) (if b then p' else q').
Proof. destruct b; auto. Qed.

Lemma par_le_eq (p q : Parser A) l r :
  par_le p q -> p l = r -> r <> OutOfFuel -> q l = r.
Proof.
  intros H E Hr. destruct (H l) as [E'|E']; congruence.
Qed.
End FuelOrder.

Lemma cons_while_le {A} (mk : A -> A -> A) (p q : Parser A) :
  par_le p q ->
  forall n m, n <= m ->
  forall acc, par_le (cons_while n p mk acc) (cons_while m q mk acc).
Proof.
  intros Hpq. induction n as [|n IH]; intros m Hnm acc.
  - apply outOfFuel_le.
  - destruct m as [|m]; [lia|]. simpl.
    apply bind_le; [apply par_le_refl|]. intros c.
    apply if_le; [|apply par_le_refl].
    apply bind_le; [apply par_le_refl|]. intros _.
    apply bind_le; [exact Hpq|]. intros tail.
    apply IH. lia.
Qed.

Lemma parseCommaSep_while_le {T} (stopSet : list TT) (p q : Parser T) :
  par_le p q ->
  forall n m, n <= m ->
  forall elts, par_le (parseCommaSep_while n p stopSet elts)
                      (parseCommaSep_while m q stopSet elts).
Proof.
  intros Hpq. induction n as [|n IH]; intros m Hnm elts.
  - apply outOfFuel_le.
  - destruct m as [|m]; [lia|]. simpl.
    apply bind_le; [apply par_le_refl|]. intros more.
    apply if_le; [apply par_le_refl|].
    apply bind_le; [apply par_le_refl|]. intros tok.
    apply if_le; [apply par_le_refl|].
    apply bind_le; [apply par_le_refl|]. intros _.
    apply bind_le; [apply par_le_refl|]. intros stop.
    apply if_le; [apply par_le_refl|].
    apply bind_le; [exact Hpq|]. intros x.
    apply IH. lia.
Qed.

Lemma parseCommaSep_le {T} (stopSet : list TT) (p q : Parser T) n m :
  par_le p q -> n <= m ->
  par_le (parseCommaSep n p stopSet) (parseCommaSep m q stopSet).
Proof.
  intros Hpq Hnm. unfold parseCommaSep.
  apply bind_le; [apply par_le_refl|]. intros stop.
  apply if_le; [apply par_le_refl|].
  apply bind_le; [exact Hpq|]. intros x.
  apply parseCommaSep_while_le; assumption.
Qed.

(** Closes a goal [par_le body body'] where the two bodies differ only in
    the fuel of the rules they call. *)
Ltac fuel_mono :=
  repeat first
    [ assumption
    | apply outOfFuel_le
    | apply cons_while_le; [|lia]
    | apply parseCommaSep_le; [|lia]
    | apply bind_le
    | apply if_le
    | apply par_le_refl
    | intro ].

Lemma pattern_fuel_step n :
  par_le (parsePattern n) (parsePattern (S n)) /\
  par_le (parsePattern1 n) (parsePattern1 (S n)) /\
  par_le (parseTreePattern n) (parseTreePattern (S n)) /\
  par_le (parseVarOrAsPattern n) (parseVarOrAsPattern (S n)).
Proof.
  induction n as [|n (IH & IH1 & IHT & IHV)].
  - repeat split; apply outOfFuel_le.
  - repeat split.
    + rewrite (parsePattern_S n), (parsePattern_S (S n)). fuel_mono.
    + rewrite (parsePattern1_S n), (parsePattern1_S (S n)). fuel_mono.
    + rewrite (parseTreePattern_S n), (parseTreePattern_S (S n)). fuel_mono.
    + rewrite (parseVarOrAsPattern_S n), (parseVarOrAsPattern_S (S n)).
      fuel_mono.
Qed.

Lemma term_fuel_step n :
  par_le (parseTerm n) (parseTerm (S n)) /\
  par_le (parseTerm1 n) (parseTerm1 (S n)) /\
  par_le (parseTreeOrVarOrApp n) (parseTreeOrVarOrApp (S n)) /\
  par_le (parseMatchTerm n) (parseMatchTerm (S n)) /\
  par_le (parseMatchClause n) (parseMatchClause (S n)).
Proof.
  induction n as [|n (IH & IH1 & IHT & IHM & IHC)].
  - repeat split; apply outOfFuel_le.
  - pose proof (pattern_fuel_step n) as (HP & _).
    repeat split.
    + rewrite (parseTerm_S n), (parseTerm_S (S n)). fuel_mono.
    + rewrite (parseTerm1_S n), (parseTerm1_S (S n)). fuel_mono.
    + rewrite (parseTreeOrVarOrApp_S n), (parseTreeOrVarOrApp_S (S n)).
      fuel_mono.
    + rewrite (parseMatchTerm_S n), (parseMatchTerm_S (S n)). fuel_mono.
    + rewrite (parseMatchClause_S n), (parseMatchClause_S (S n)). fuel_mono.
Qed.

Lemma fuel_le_of_step {A} (f : nat -> Parser A) :
  (forall n, par_le (f n) (f (S n))) ->
  forall n m, n <= m -> par_le (f n) (f m).
Proof.
  intros Hstep n m Hnm. induction Hnm as [|m Hnm IH].
  - apply par_le_refl.
  - eapply par_le_trans; [exact IH | apply Hstep].
Qed.

Lemma parsePattern_fuel_le n m :
  n <= m -> par_le (parsePattern n) (parsePattern m).
Proof. apply fuel_le_of_step. intro k. apply pattern_fuel_step. Qed.

Lemma parsePattern1_fuel_le n m :
  n <= m -> par_le (parsePattern1 n) (parsePattern1 m).
Proof. apply fuel_le_of_step. intro k. apply pattern_fuel_step. Qed.

Lemma parseTerm_fuel_le n m :
  n <= m -> par_le (parseTerm n) (parseTerm m).
Proof. apply fuel_le_of_step. intro k. apply term_fuel_step. Qed.


Lemma parseDef_fuel_le n m :
  n <= m -> par_le (parseDef n) (parseDef m).
Proof.
  intros Hnm. pose proof (parsePattern_fuel_le Hnm).
  pose proof (parseTerm_fuel_le Hnm). unfold parseDef. fuel_mono.
Qed.

Lemma parseItem_fuel_le n m :
  n <= m -> par_le (parseItem n) (parseItem m).
Proof.
  intros Hnm. pose proof (parseDef_fuel_le Hnm).
  pose proof (parseTerm_fuel_le Hnm). unfold parseItem. fuel_mono.
Qed.

Lemma parseProgram_while_le (p q : Parser Item) :
  par_le p q ->
  forall n m, n <= m ->
  forall items, par_le (parseProgram_while n p items)
                       (parseProgram_while m q items).
Proof.
  intros Hpq. induction n as [|n IH]; intros m Hnm items.
  - apply outOfFuel_le.
  - destruct m as [|m]; [lia|]. simpl.
    apply bind_le; [apply par_le_refl|]. intros more.
    apply if_le; [|apply par_le_refl].
    apply bind_le; [exact Hpq|]. intros item.
    apply bind_le; [apply par_le_refl|]. intros _.
    apply IH. lia.
Qed.

Lemma parseProgram_fuel_le n m :
  n <= m -> par_le (parseProgram_fuel n) (parseProgram_fuel m).
Proof.
  intros Hnm. unfold parseProgram_fuel.
  apply parseProgram_while_le; [apply parseItem_fuel_le|]; assumption.
Qed.

(** ** Enough fuel: every rule finishes and only moves the cursor forward *)

Section GoodParsers.
Context {A B : Type}.

Lemma Good_le (N N' : nat) (p : Parser A) :
  N' <= N -> Good N p -> Good N' p.
Proof. intros H G l Hl. apply G. lia. Qed.

Lemma Good_ret (N : nat) (a : A) : Good N (ret a).
Proof. intros l _. exists []. reflexivity. Qed.

Lemma Good_throw (N : nat) (e : SyntaxError) : Good N (@throw A e).
Proof. intros l _. exact I. Qed.

Lemma Good_bind (N : nat) (m : Parser A) (k : A -> Parser B) :
  Good N m -> (forall a, Good N (k a)) -> Good N (bind m k).
Proof.
  intros Gm Gk l Hl. unfold bind. specialize (Gm l Hl).
  destruct (m l) as [a l1| |]; [|exact I|contradiction].
  destruct Gm as [pre ->]. rewrite length_app in Hl.
  assert (Hl1 : List.length l1 <= N) by lia.
  specialize (Gk a l1 Hl1).
  destruct (k a l1) as [b l2| |]; [|exact I|contradiction].
  destruct Gk as [pre' ->]. exists (pre ++ pre'). apply app_assoc.
Qed.

(** A rule that starts by looking at the next token only runs the rest
    on a non-empty cursor. *)
Lemma Good_peek_bind (N : nat) (k : Token -> Parser B) :
  (forall N', N = S N' -> forall t, Good N (k t)) ->
  Good N (bind peek k).
Proof.
  intros Gk l Hl. unfold bind, peek.
  destruct l as [|t l1]; [exact I|].
  destruct N as [|N']; [simpl in Hl; lia|].
  apply (Gk N' eq_refl t (t :: l1) Hl).
Qed.

Lemma Good_pop_bind (N : nat) (k : Token -> Parser B) :
  (forall N', N = S N' -> forall t, Good N' (k t)) ->
  Good N (bind pop k).
Proof.
  intros Gk l Hl. unfold bind, pop.
  destruct l as [|t l1]; [exact I|].
  destruct N as [|N']; [simpl in Hl; lia|].
  simpl in Hl. assert (Hl1 : List.length l1 <= N') by lia.
  specialize (Gk N' eq_refl t l1 Hl1).
  destruct (k t l1) as [b l2| |]; [|exact I|contradiction].
  destruct Gk as [pre ->]. exists (t :: pre). reflexivity.
Qed.

Lemma Good_expect_bind (N : nat) (allowed : list TT)
      (k : Token -> Parser B) :
  (forall N', N = S N' -> forall t, Good N' (k t)) ->
  Good N (bind (expect allowed) k).
Proof.
  intros Gk l Hl. unfold bind, expect.
  destruct l as [|t l1]; [exact I|].
  destruct (includes allowed (type t)); [|exact I].
  destruct N as [|N']; [simpl in Hl; lia|].
  simpl in Hl. assert (Hl1 : List.length l1 <= N') by lia.
  specialize (Gk N' eq_refl t l1 Hl1).
  destruct (k t l1) as [b l2| |]; [|exact I|contradiction].
  destruct Gk as [pre ->]. exists (t :: pre). reflexivity.
Qed.

Lemma Good_if (N : nat) (b : bool) (p q : Parser A) :
  Good N p -> Good N q -> Good N (if b then p else q).
Proof. destruct b; auto. Qed.

(** A guard that inspects the cursor without moving it. *)
Lemma Good_guard_bind (N : nat) (g : Parser bool) (f : Lexer -> bool)
      (k : bool -> Parser B) :
  (forall l, g l = Ok (f l) l) ->
  (forall b, Good N (k b)) ->
  Good N (bind g k).
Proof.
  intros Hg Gk l Hl. unfold bind. rewrite Hg. apply Gk. exact Hl.
Qed.
End GoodParsers.

Lemma Good_hasMore_bind {B} (N : nat) (k : bool -> Parser B) :
  (forall b, Good N (k b)) -> Good N (bind hasMore k).
Proof.
  apply Good_guard_bind
    with (f := fun l => match l with [] => false | _ :: _ => true end).
  reflexivity.
Qed.

Lemma Good_expect (N : nat) (allowed : list TT) : Good N (expect allowed).
Proof.
  intros l _. unfold expect. destruct l as [|t l1]; [exact I|].
  destruct (includes allowed (type t)); [|exact I].
  exists [t]. reflexivity.
Qed.

Lemma Good_cons_while {A} (mk : A -> A -> A) (parseTail : Parser A) :
  forall fuel N, N < fuel ->
  (forall N', N = S N' -> Good N' parseTail) ->
  forall acc, Good N (cons_while fuel parseTail mk acc).
Proof.
  induction fuel as [|fuel IH]; intros N Hf Gp acc; [lia|].
  simpl. apply Good_guard_bind with (f := next_is colon);
    [apply hasMoreAndPeekIs_eq|].
  intros [|]; [|apply Good_ret].
  apply Good_pop_bind. intros N' -> _.
  apply Good_bind; [apply Gp; reflexivity|].
  intros tail. apply IH; [lia|].
  intros N'' ->. apply Good_le with (N := S N''); [lia|].
  apply Gp. reflexivity.
Qed.

Lemma Good_parseCommaSep_while {T} (parseElt : Parser T)
      (stopSet : list TT) :
  forall fuel N, N < fuel ->
  (forall N', N = S N' -> Good N' parseElt) ->
  forall elts, Good N (parseCommaSep_while fuel parseElt stopSet elts).
Proof.
  induction fuel as [|fuel IH]; intros N Hf Gp elts; [lia|].
  simpl. apply Good_hasMore_bind.
  intros more. apply Good_if; [apply Good_ret|].
  apply Good_peek_bind. intros N0 HN tok.
  apply Good_if; [apply Good_ret|].
  apply Good_expect_bind. intros N' -> _.
  apply Good_guard_bind with (f := at_stop stopSet);
    [apply exhaustedOrStop_eq|].
  intros stop. apply Good_if; [apply Good_ret|].
  apply Good_bind; [apply Gp; reflexivity|].
  intros x. apply IH; [lia|].
  intros N'' ->. apply Good_le with (N := S N''); [lia|].
  apply Gp. reflexivity.
Qed.

Lemma Good_parseCommaSep {T} (parseElt : Parser T) (stopSet : list TT)
      (fuel N : nat) :
  N < fuel -> Good N parseElt ->
  Good N (parseCommaSep fuel parseElt stopSet).
Proof.
  intros Hf Gp. unfold parseCommaSep.
  apply Good_guard_bind with (f := at_stop stopSet);
    [apply exhaustedOrStop_eq|].
  intros stop. apply Good_if; [apply Good_ret|].
  apply Good_bind; [exact Gp|].
  intros x. apply Good_parseCommaSep_while; [exact Hf|].
  intros N' ->. apply Good_le with (N := S N'); [lia|exact Gp].
Qed.

Lemma Good_hasMoreAndPeekIs_bind {B} (N : nat) (ty : TT)
      (k : bool -> Parser B) :
  (forall b, Good N (k b)) -> Good N (bind (hasMoreAndPeekIs ty) k).
Proof.
  apply Good_guard_bind with (f := next_is ty). apply hasMoreAndPeekIs_eq.
Qed.

(** Decomposes a goal [Good N body] along the structure of [body]; the
    calls of rules are left to the induction hypotheses in the context. *)
Ltac good_step :=
  first
    [ apply Good_ret
    | apply Good_throw
    | apply Good_expect
    | apply Good_if
    | apply Good_hasMoreAndPeekIs_bind; intros ?
    | apply Good_peek_bind; intros ? ? ?
    | apply Good_pop_bind; intros ? ? ?
    | apply Good_expect_bind; intros ? ? ?
    | apply Good_parseCommaSep; [lia|]
    | apply Good_cons_while; [lia | intros ? ?]
    | apply Good_bind; [|intros ?] ].

Ltac good_rules :=
  repeat first
    [ match goal with
      | H : forall N, _ -> Good N ?p |- Good _ ?p => apply H; lia
      end
    | good_step ].

Lemma pattern_Good n :
  forall N,
    (5 * N + 3 <= n -> Good N (parsePattern n)) /\
    (5 * N + 2 <= n -> Good N (parsePattern1 n)) /\
    (5 * N + 1 <= n -> Good N (parseTreePattern n)) /\
    (5 * N + 1 <= n -> Good N (parseVarOrAsPattern n)).
Proof.
  induction n as [|n IH]; intros N.
  - repeat split; intros H; lia.
  - assert (IHP : forall N, 5 * N + 3 <= n -> Good N (parsePattern n))
      by (intros M; apply IH).
    assert (IH1 : forall N, 5 * N + 2 <= n -> Good N (parsePattern1 n))
      by (intros M; apply IH).
    assert (IHT : forall N, 5 * N + 1 <= n -> Good N (parseTreePattern n))
      by (intros M; apply IH).
    assert (IHV : forall N, 5 * N + 1 <= n -> Good N (parseVarOrAsPattern n))
      by (intros M; apply IH).
    clear IH. repeat split; intros HN.
    + rewrite parsePattern_S. good_rules.
    + rewrite parsePattern1_S. good_rules.
    + rewrite parseTreePattern_S. good_rules.
    + rewrite parseVarOrAsPattern_S. good_rules.
Qed.

Lemma parsePattern_Good n N : 5 * N + 3 <= n -> Good N (parsePattern n).
Proof. apply pattern_Good. Qed.

Lemma term_Good n :
  forall N,
    (5 * N + 3 <= n -> Good N (parseTerm n)) /\
    (5 * N + 2 <= n -> Good N (parseTerm1 n)) /\
    (5 * N + 1 <= n -> Good N (parseTreeOrVarOrApp n)) /\
    (5 * N + 1 <= n -> Good N (parseMatchTerm n)) /\
    (5 * N + 4 <= n -> Good N (parseMatchClause n)).
Proof.
  induction n as [|n IH]; intros N.
  - repeat split; intros H; lia.
  - assert (IHP : forall N, 5 * N + 3 <= n -> Good N (parsePattern n))
      by (intros M; apply parsePattern_Good).
    assert (IHt : forall N, 5 * N + 3 <= n -> Good N (parseTerm n))
      by (intros M; apply IH).
    assert (IH1 : forall N, 5 * N + 2 <= n -> Good N (parseTerm1 n))
      by (intros M; apply IH).
    assert (IHT : forall N, 5 * N + 1 <= n -> Good N (parseTreeOrVarOrApp n))
      by (intros M; apply IH).
    assert (IHM : forall N, 5 * N + 1 <= n -> Good N (parseMatchTerm n))
      by (intros M; apply IH).
    assert (IHC : forall N, 5 * N + 4 <= n -> Good N (parseMatchClause n))
      by (intros M; apply IH).
    clear IH. repeat split; intros HN.
    + rewrite parseTerm_S. good_rules.
    + rewrite parseTerm1_S. good_rules.
    + rewrite parseTreeOrVarOrApp_S. good_rules.
    + rewrite parseMatchTerm_S. good_rules.
    + rewrite parseMatchClause_S. good_rules.
Qed.

Lemma parseTerm_Good n N : 5 * N + 3 <= n -> Good N (parseTerm n).
Proof. apply term_Good. Qed.

Lemma parseDef_Good n N : 5 * N + 3 <= n -> Good N (parseDef n).
Proof.
  intros HN.
  assert (IHP : forall N', 5 * N' + 3 <= n -> Good N' (parsePattern n))
    by (intros M; apply parsePattern_Good).
  assert (IHt : forall N', 5 * N' + 3 <= n -> Good N' (parseTerm n))
    by (intros M; apply parseTerm_Good).
  unfold parseDef. good_rules.
Qed.

Lemma parseItem_Good n N : 5 * N + 3 <= n -> Good N (parseItem n).
Proof.
  intros HN.
  assert (IHD : forall N', 5 * N' + 3 <= n -> Good N' (parseDef n))
    by (intros M; apply parseDef_Good).
  assert (IHt : forall N', 5 * N' + 3 <= n -> Good N' (parseTerm n))
    by (intros M; apply parseTerm_Good).
  unfold parseItem. good_rules.
Qed.

Lemma Good_parseProgram_while (parseItem_ : Parser Item) :
  forall fuel N, N < fuel -> Good N parseItem_ ->
  forall items, Good N (parseProgram_while fuel parseItem_ items).
Proof.
  induction fuel as [|fuel IH]; intros N Hf Gp items; [lia|].
  simpl. apply Good_hasMore_bind. intros more.
  apply Good_if; [|apply Good_ret].
  apply Good_bind; [exact Gp|]. intros item.
  apply Good_expect_bind. intros N' -> _.
  apply IH; [lia|]. apply Good_le with (N := S N'); [lia|exact Gp].
Qed.

Lemma parseProgram_fuel_Good n N :
  5 * N + 3 <= n -> Good N (parseProgram_fuel n).
Proof.
  intros HN. unfold parseProgram_fuel.
  apply Good_parseProgram_while; [lia|]. apply parseItem_Good. exact HN.
Qed.

(** Once the fuel is enough for the cursor, the result no longer depends
    on it. *)
Lemma fuel_independent {A} (f : nat -> Parser A) (need : nat -> nat) :
  (forall n m, n <= m -> par_le (f n) (f m)) ->
  (forall n N, need N <= n -> Good N (f n)) ->
  forall n m l r,
    need (List.length l) <= m -> f n l = r -> r <> OutOfFuel -> f m l = r.
Proof.
  intros Hmono Hgood n m l r Hm E Hr.
  destruct (Nat.le_gt_cases n m) as [Hnm|Hnm].
  - eapply par_le_eq; [apply (Hmono n m Hnm) | exact E | exact Hr].
  - assert (Hmn : m <= n) by lia.
    destruct (Hmono m n Hmn l) as [E'|E']; [|congruence].
    pose proof (Hgood m (List.length l) Hm l (le_n _)) as G.
    rewrite E' in G. contradiction.
Qed.

(** ** String unescaping *)

Lemma substring_0_app (s t : string) :
  String.substring 0 (String.length s) (s ++ t)%string = s.
Proof.
  induction s as [|c s IH]; simpl.
  - destruct t; reflexivity.
  - rewrite IH. reflexivity.
Qed.

Lemma string_length_app (s t : string) :
  String.length (s ++ t)%string = String.length s + String.length t.
Proof. induction s as [|c s IH]; simpl; [reflexivity | rewrite IH; reflexivity]. Qed.

Lemma js_substring_strip (c c' : ascii) (body : string) :
  let text_ := String c (body ++ String c' EmptyString)%string in
  js_substring text_ 1 (Z.of_nat (String.length text_) - 1) = body.
Proof.
  intros text_. unfold js_substring.
  assert (Hlen : String.length text_ = S (S (String.length body))).
  { unfold text_. simpl. rewrite string_length_app. simpl. lia. }
  rewrite Hlen.
  set (len := Z.of_nat (S (S (String.length body)))).
  assert (Hl : (len = Z.of_nat (String.length body) + 2)%Z) by (unfold len; lia).
  replace (Z.min (Z.max 1 0) len) with 1%Z by lia.
  replace (Z.min (Z.max (len - 1) 0) len) with (len - 1)%Z by lia.
  replace (Z.min 1 (len - 1)) with 1%Z by lia.
  replace (Z.max 1 (len - 1)) with (len - 1)%Z by lia.
  replace (Z.to_nat 1) with 1 by reflexivity.
  replace (Z.to_nat (len - 1 - 1)) with (String.length body) by lia.
  unfold text_. simpl. apply substring_0_app.
Qed.

Lemma startsWith_squote (c : ascii) (s : string) :
  startsWith (String c s) (String squote EmptyString) = Ascii.eqb c squote.
Proof.
  unfold startsWith.
  change (String.prefix (String squote EmptyString) (String c s))
    with (if ascii_dec squote c then String.prefix EmptyString s else false).
  destruct (ascii_dec squote c) as [E|E].
  - rewrite <- E, Ascii.eqb_refl. destruct s; reflexivity.
  - symmetry. apply Ascii.eqb_neq. congruence.
Qed.

Lemma replaceEscaped_none (q : ascii) (body : string) :
  (forall s1 s2, body <> (s1 ++ String backslash (String q s2))%string) ->
  replaceEscaped q body = body.
Proof.
  induction body as [|c rest IH]; intros Hno; [reflexivity|].
  assert (IH' : replaceEscaped q rest = rest).
  { apply IH. intros s1 s2 E. apply (Hno (String c s1) s2).
    simpl. rewrite E. reflexivity. }
  simpl. destruct rest as [|d rest']; [reflexivity|].
  destruct (Ascii.eqb c backslash && Ascii.eqb d q)%bool eqn:E.
  - apply andb_true_iff in E. destruct E as [E1 E2].
    apply Ascii.eqb_eq in E1, E2. subst c d.
    exfalso. apply (Hno EmptyString rest'). reflexivity.
  - rewrite IH'. reflexivity.
Qed.

Lemma replaceEscaped_match (q : ascii) (s : string) :
  replaceEscaped q (String backslash (String q s))
  = String q (replaceEscaped q s).
Proof. simpl. rewrite !Ascii.eqb_refl. reflexivity. Qed.

Lemma replaceEscaped_other_escape (q d : ascii) (s : string) :
  d <> q ->
  replaceEscaped q (String backslash (String d s))
  = String backslash (replaceEscaped q (String d s)).
Proof.
  intros Hd. apply Ascii.eqb_neq in Hd.
  change (replaceEscaped q (String backslash (String d s)))
    with (if (Ascii.eqb backslash backslash && Ascii.eqb d q)%bool
          then String q (replaceEscaped q s)
          else String backslash (replaceEscaped q (String d s))).
  rewrite Hd, andb_false_r. reflexivity.
Qed.

Lemma replaceEscaped_keep (q d : ascii) (s : string) :
  d <> backslash ->
  replaceEscaped q (String d s) = String d (replaceEscaped q s).
Proof.
  intros Hd. apply Ascii.eqb_neq in Hd.
  destruct s as [|e s']; [reflexivity|].
  change (replaceEscaped q (String d (String e s')))
    with (if (Ascii.eqb d backslash && Ascii.eqb e q)%bool
          then String q (replaceEscaped q s')
          else String d (replaceEscaped q (String e s'))).
  rewrite Hd. reflexivity.
Qed.

Lemma getStringText_strip (c c' : ascii) (body : string) :
  getStringText (String c (body ++ String c' EmptyString)%string)
  = replaceEscaped (quote_of c) body.
Proof.
  unfold getStringText. rewrite js_substring_strip.
  rewrite startsWith_squote. unfold quote_of.
  destruct (Ascii.eqb c squote); reflexivity.
Qed.

(** C7. [getStringText] strips exactly the first and the last character of
    the raw token text and then rewrites only the escape of the quote the
    text starts with (backslash-quote becomes the quote): an escaped other
    character keeps its backslash, every other character is kept, and a
    body without the matching escape is returned as it is. *)
Theorem getStringText_unescapes (c c' : ascii) (body : string) :
  getStringText (String c (body ++ String c' EmptyString)%string)
    = replaceEscaped (quote_of c) body
  /\ (forall s,
        replaceEscaped (quote_of c) (String backslash (String (quote_of c) s))
        = String (quote_of c) (replaceEscaped (quote_of c) s))
  /\ (forall d s, d <> quote_of c ->
        replaceEscaped (quote_of c) (String backslash (String d s))
        = String backslash (replaceEscaped (quote_of c) (String d s)))
  /\ (forall d s, d <> backslash ->
        replaceEscaped (quote_of c) (String d s)
        = String d (replaceEscaped (quote_of c) s))
  /\ ((forall s1 s2,
         body <> (s1 ++ String backslash (String (quote_of c) s2))%string) ->
      getStringText (String c (body ++ String c' EmptyString)%string) = body).
Proof.
  split; [apply getStringText_strip|].
  split; [apply replaceEscaped_match|].
  split; [intros d s; apply replaceEscaped_other_escape|].
  split; [intros d s; apply replaceEscaped_keep|].
  intros Hno. rewrite getStringText_strip.
  apply replaceEscaped_none. exact Hno.
Qed.

Lemma getStringText_unescapes_witness :
  (forall s1 s2,
      mismatched_body
      <> (s1 ++ String backslash (String (quote_of dquote) s2))%string)
  /\ getStringText mismatched_text = mismatched_body.
Proof.
  assert (Hno : forall s1 s2,
             mismatched_body
             <> (s1 ++ String backslash (String (quote_of dquote) s2))%string).
  { intros s1 s2 E. unfold mismatched_body in E.
    destruct s1 as [|a1 [|a2 [|a3 [|a4 s1]]]]; try discriminate E.
    destruct s1; discriminate E. }
  split; [exact Hno|].
  apply (getStringText_unescapes dquote dquote mismatched_body). exact Hno.
Defined.

(** The three texts of the specification: a double-quoted text with the
    matching escape, a single-quoted one, and a double-quoted text with
    the escape of the other quote, which keeps its backslash. *)
Example getStringText_examples :
  getStringText
    (String dquote ("a" ++ String backslash (String dquote "b")
                    ++ String dquote EmptyString)%string)
    = ("a" ++ String dquote "b")%string
  /\ getStringText
       (String squote ("a" ++ String backslash (String squote "b")
                       ++ String squote EmptyString)%string)
    = "a'b"
  /\ getStringText
       (String dquote ("a" ++ String backslash (String squote "b")
                       ++ String dquote EmptyString)%string)
    = ("a" ++ String backslash "'b")%string.
Proof. repeat split. Qed.

(** ** Comma-separated lists *)

Section CommaSep.
Context {T : Type}.
Variable parseElt : Parser T.
Variable stopSet : list TT.

Lemma parseCommaSep_at_stop fuel l :
  at_stop stopSet l = true ->
  parseCommaSep fuel parseElt stopSet l = Ok [] l.
Proof.
  intros H. unfold parseCommaSep, bind.
  rewrite exhaustedOrStop_eq, H. reflexivity.
Qed.

Lemma parseCommaSep_not_at_stop fuel l :
  at_stop stopSet l = false ->
  parseCommaSep fuel parseElt stopSet l =
  (x <- parseElt ;; parseCommaSep_while fuel parseElt stopSet [x]) l.
Proof.
  intros H. unfold parseCommaSep at 1. unfold bind at 1.
  rewrite exhaustedOrStop_eq, H. reflexivity.
Qed.

(** The loop only appends to the array, and it returns in front of a
    stop token or at the end of the input. *)
Lemma parseCommaSep_while_Ok fuel :
  forall elts l xs l',
    parseCommaSep_while fuel parseElt stopSet elts l = Ok xs l' ->
    at_stop stopSet l' = true /\ exists more, xs = elts ++ more.
Proof.
  induction fuel as [|fuel IH]; intros elts l xs l' H; [discriminate|].
  simpl in H. unfold bind in H.
  destruct l as [|tok l1]; simpl in H.
  - inversion H; subst. split; [reflexivity|].
    exists []. symmetry. apply app_nil_r.
  - destruct (includes stopSet (type tok)) eqn:Estop.
    + inversion H; subst. split; [exact Estop|].
      exists []. symmetry. apply app_nil_r.
    + unfold expect in H.
      destruct (includes [comma] (type tok)); [|discriminate].
      rewrite exhaustedOrStop_eq in H.
      destruct (at_stop stopSet l1) eqn:E1.
      * inversion H; subst. split; [exact E1|].
        exists []. symmetry. apply app_nil_r.
      * destruct (parseElt l1) as [x l2| |]; try discriminate.
        apply IH in H. destruct H as [Hs [more ->]].
        split; [exact Hs|]. exists (x :: more).
        rewrite <- app_assoc. reflexivity.
Qed.

Lemma parseCommaSep_Ok fuel l xs l' :
  parseCommaSep fuel parseElt stopSet l = Ok xs l' ->
  at_stop stopSet l' = true /\
  (xs = [] <-> at_stop stopSet l = true).
Proof.
  intros H. destruct (at_stop stopSet l) eqn:E.
  - rewrite (parseCommaSep_at_stop fuel l E) in H. inversion H; subst.
    split; [exact E|]. split; reflexivity.
  - rewrite (parseCommaSep_not_at_stop fuel l E) in H.
    apply bind_Ok_inv in H. destruct H as (x & l1 & _ & H).
    apply parseCommaSep_while_Ok in H. destruct H as [Hs [more ->]].
    split; [exact Hs|]. split; discriminate.
Qed.

Hypothesis comma_not_stop : includes stopSet comma = false.

Lemma parseCommaSep_while_comma fuel elts c l1 :
  type c = comma ->
  parseCommaSep_while (S fuel) parseElt stopSet elts (c :: l1) =
  if at_stop stopSet l1 then Ok elts l1
  else (x <- parseElt ;;
        parseCommaSep_while fuel parseElt stopSet (elts ++ [x])) l1.
Proof.
  intros Hc. simpl. unfold bind at 1 2 3 4. simpl.
  rewrite Hc, comma_not_stop. simpl. rewrite Hc. simpl.
  rewrite exhaustedOrStop_eq.
  destruct (at_stop stopSet l1); reflexivity.
Qed.

Lemma parseCommaSep_while_at_stop fuel elts l :
  at_stop stopSet l = true ->
  parseCommaSep_while (S fuel) parseElt stopSet elts l = Ok elts l.
Proof.
  intros H. simpl. unfold bind. destruct l as [|tok l1]; simpl.
  - reflexivity.
  - simpl in H. rewrite H. reflexivity.
Qed.

(** The loop follows a run of [, element] pairs. *)
Lemma parseCommaSep_while_sep_elts l xs l2 :
  sep_elts parseElt stopSet l xs l2 ->
  forall fuel elts,
    parseCommaSep_while (List.length xs + fuel) parseElt stopSet elts l =
    parseCommaSep_while fuel parseElt stopSet (elts ++ xs) l2.
Proof.
  induction 1 as [l|c l1 x l2 xs l' Hc Hstop Hx Hrun IH]; intros fuel elts.
  - rewrite app_nil_r. reflexivity.
  - simpl List.length. rewrite Nat.add_succ_l.
    rewrite parseCommaSep_while_comma by exact Hc. rewrite Hstop.
    erewrite bind_Ok by exact Hx. rewrite IH, <- app_assoc. reflexivity.
Qed.

Hypothesis comma_rejected :
  forall c r, type c = comma -> exists e, parseElt (c :: r) = Throw e.

(** C6. [parseCommaSep] returns the empty sequence when the cursor is at
    a stop token or at the end of the input; it never consumes the stop
    token (when it returns, the cursor is in front of it or at the end of
    the input); after a first element and any run of [, element] pairs
    it returns the elements when the stop token follows, also when one
    comma precedes the stop token, and raises an error on two commas in
    a row; and it raises an error on a comma with no element before it.
    The commas are the separators: [comma] is not a stop token and no
    element starts with one. *)
Theorem parseCommaSep_commas fuel l :
  (at_stop stopSet l = true ->
   parseCommaSep fuel parseElt stopSet l = Ok [] l)
  /\ (forall xs l', parseCommaSep fuel parseElt stopSet l = Ok xs l' ->
                    at_stop stopSet l' = true)
  /\ (forall x l1 xs l2,
        at_stop stopSet l = false ->
        parseElt l = Ok x l1 ->
        sep_elts parseElt stopSet l1 xs l2 ->
        List.length xs < fuel ->
        (at_stop stopSet l2 = true ->
         parseCommaSep fuel parseElt stopSet l = Ok (x :: xs) l2)
        /\ (forall c l3, l2 = c :: l3 -> type c = comma ->
              at_stop stopSet l3 = true ->
              parseCommaSep fuel parseElt stopSet l = Ok (x :: xs) l3)
        /\ (forall c c' l3, l2 = c :: c' :: l3 ->
              type c = comma -> type c' = comma ->
              exists e, parseCommaSep fuel parseElt stopSet l = Throw e))
  /\ (forall c r, l = c :: r -> type c = comma ->
        exists e, parseCommaSep fuel parseElt stopSet l = Throw e).
Proof.
  split; [apply parseCommaSep_at_stop|].
  split; [intros xs l' H; apply (parseCommaSep_Ok _ _ H)|].
  split.
  - intros x l1 xs l2 Hl Hx Hrun Hfuel.
    assert (Hloop : forall k,
               parseCommaSep (List.length xs + S k) parseElt stopSet l =
               parseCommaSep_while (S k) parseElt stopSet (x :: xs) l2).
    { intros k. rewrite (parseCommaSep_not_at_stop _ _ Hl).
      erewrite bind_Ok by exact Hx.
      apply (parseCommaSep_while_sep_elts Hrun (S k) [x]). }
    assert (Hk : exists k, fuel = List.length xs + S k)
      by (exists (fuel - List.length xs - 1); lia).
    destruct Hk as [k ->]. rewrite Hloop.
    split; [|split].
    + intros Hs. apply parseCommaSep_while_at_stop. exact Hs.
    + intros c l3 -> Hc Hs.
      rewrite parseCommaSep_while_comma by exact Hc. rewrite Hs. reflexivity.
    + intros c c' l3 -> Hc Hc'.
      rewrite parseCommaSep_while_comma by exact Hc.
      simpl at_stop. rewrite Hc', comma_not_stop.
      destruct (comma_rejected c' l3 Hc') as [e He]. exists e.
      apply bind_Throw. exact He.
  - intros c r -> Hc.
    assert (Hl : at_stop stopSet (c :: r) = false)
      by (simpl; rewrite Hc; exact comma_not_stop).
    rewrite (parseCommaSep_not_at_stop _ _ Hl).
    destruct (comma_rejected c r Hc) as [e He]. exists e.
    apply bind_Throw. exact He.
Qed.
End CommaSep.

(** No rule that [parseCommaSep] is called with accepts a leading comma. *)
Lemma parseTerm_rejects_comma n c r :
  type c = comma -> parseTerm (S (S n)) (c :: r) = Throw ExpectedATerm.
Proof.
  intros Hc. rewrite parseTerm_S. apply bind_Throw.
  rewrite parseTerm1_S. unfold bind, peek. rewrite Hc. reflexivity.
Qed.

Lemma parsePattern_rejects_comma n c r :
  type c = comma -> parsePattern (S (S n)) (c :: r) = Throw ExpectedAPattern.
Proof.
  intros Hc. rewrite parsePattern_S. apply bind_Throw.
  rewrite parsePattern1_S. unfold bind, peek. rewrite Hc. reflexivity.
Qed.

Lemma parseMatchClause_rejects_comma n c r :
  type c = comma ->
  parseMatchClause (S (S (S n))) (c :: r) = Throw ExpectedAPattern.
Proof.
  intros Hc. rewrite parseMatchClause_S. apply bind_Throw.
  rewrite parseCommaSep_not_at_stop by (simpl; rewrite Hc; reflexivity).
  apply bind_Throw. apply parsePattern_rejects_comma. exact Hc.
Qed.

Lemma parseCommaSep_commas_witness :
  includes [rParen] comma = false
  /\ (forall c r, type c = comma -> exists e, parseTerm 6 (c :: r) = Throw e)
  /\ parseCommaSep 6 (parseTerm 6) [rParen] toks_trailing_comma
     = Ok [TreeTerm "a" []; TreeTerm "b" []] [tk rParen ")"].
Proof.
  assert (H1 : includes [rParen] comma = false) by reflexivity.
  assert (H2 : forall c r, type c = comma ->
                           exists e, parseTerm 6 (c :: r) = Throw e).
  { intros c r Hc. exists ExpectedATerm.
    apply parseTerm_rejects_comma. exact Hc. }
  split; [exact H1|]. split; [exact H2|].
  destruct (@parseCommaSep_commas _ (parseTerm 6) [rParen] H1 H2 6
              toks_trailing_comma) as (_ & _ & H & _).
  destruct (H (TreeTerm "a" []) (skipn 1 toks_trailing_comma)
              [TreeTerm "b" []] (skipn 3 toks_trailing_comma))
    as (_ & Htrailing & _).
  - reflexivity.
  - reflexivity.
  - eapply sep_cons; [reflexivity | reflexivity | reflexivity | apply sep_nil].
  - simpl. lia.
  - apply (Htrailing (tk comma ",") [tk rParen ")"]); reflexivity.
Defined.

(** ** The [:] loop *)

Section ConsLoop.
Context {A : Type}.
Variable parseTail : Parser A.
Variable mk : A -> A -> A.

Lemma cons_while_colon fuel acc c l1 :
  type c = colon ->
  cons_while (S fuel) parseTail mk acc (c :: l1) =
  (tail <- parseTail ;; cons_while fuel parseTail mk (mk acc tail)) l1.
Proof.
  intros Hc. simpl. unfold bind at 1. rewrite hasMoreAndPeekIs_eq.
  simpl. rewrite Hc. reflexivity.
Qed.

Lemma cons_while_no_colon fuel acc l :
  next_is colon l = false ->
  cons_while (S fuel) parseTail mk acc l = Ok acc l.
Proof.
  intros H. simpl. unfold bind at 1. rewrite hasMoreAndPeekIs_eq, H.
  reflexivity.
Qed.

(** The loop returns only in front of a token that is not [:]. *)
Lemma cons_while_Ok_no_colon fuel :
  forall acc l r l',
    cons_while fuel parseTail mk acc l = Ok r l' ->
    next_is colon l' = false.
Proof.
  induction fuel as [|fuel IH]; intros acc l r l' H; [discriminate|].
  simpl in H. unfold bind at 1 in H. rewrite hasMoreAndPeekIs_eq in H.
  destruct (next_is colon l) eqn:E.
  - apply bind_Ok_inv in H. destruct H as (_ & l1 & _ & H).
    apply bind_Ok_inv in H. destruct H as (tail & l2 & _ & H).
    exact (IH _ _ _ _ H).
  - inversion H; subst. exact E.
Qed.

(** When the tail is parsed by a rule that itself returns in front of a
    token that is not [:], the loop body runs once. *)
Lemma cons_while_once fuel acc c l1 tail l2 :
  type c = colon ->
  parseTail l1 = Ok tail l2 ->
  next_is colon l2 = false ->
  cons_while (S (S fuel)) parseTail mk acc (c :: l1) = Ok (mk acc tail) l2.
Proof.
  intros Hc Ht Hn. rewrite cons_while_colon by exact Hc.
  erewrite bind_Ok by exact Ht. apply cons_while_no_colon. exact Hn.
Qed.
End ConsLoop.

Lemma parseTerm_Ok_no_colon n l t l' :
  parseTerm n l = Ok t l' -> next_is colon l' = false.
Proof.
  destruct n as [|n]; [discriminate|]. rewrite parseTerm_S. intros H.
  apply bind_Ok_inv in H. destruct H as (a & l1 & _ & H).
  exact (cons_while_Ok_no_colon _ _ _ _ _ H).
Qed.

Lemma parsePattern_Ok_no_colon n l p l' :
  parsePattern n l = Ok p l' -> next_is colon l' = false.
Proof.
  destruct n as [|n]; [discriminate|]. rewrite parsePattern_S. intros H.
  apply bind_Ok_inv in H. destruct H as (a & l1 & _ & H).
  exact (cons_while_Ok_no_colon _ _ _ _ _ H).
Qed.

Lemma Ok_not_OutOfFuel {A} (a : A) (l : Lexer) : Ok a l <> OutOfFuel.
Proof. discriminate. Qed.


Lemma parsePattern_cons n l a c l1 t l2 m :
  type c = colon ->
  parsePattern1 n l = Ok a (c :: l1) ->
  parsePattern n l1 = Ok t l2 ->
  n < m ->
  parsePattern m l = Ok (ConsPattern a t) l2.
Proof.
  intros Hc Ha Ht Hm.
  destruct m as [|m]; [lia|]. assert (Hnm : n <= m) by lia.
  assert (Hn : 2 <= n) by (destruct n as [|[|n]]; [discriminate..|lia]).
  destruct m as [|[|m]]; [lia..|].
  rewrite parsePattern_S.
  erewrite bind_Ok
    by (eapply par_le_eq;
        [apply (parsePattern1_fuel_le Hnm) | exact Ha
        | apply Ok_not_OutOfFuel]).
  apply cons_while_once;
    [exact Hc | | exact (parsePattern_Ok_no_colon _ _ Ht)].
  eapply par_le_eq;
    [apply (parsePattern_fuel_le Hnm) | exact Ht | apply Ok_not_OutOfFuel].
Qed.





(** ** The optional parenthesized list after a name *)

Lemma opt_paren_list {T B} n (p : Parser T) (K : list T -> Parser B) l :
  (paren <- hasMoreAndPeekIs lParen ;;
   xs <- (if paren then
            pop ;;
            cs <- parseCommaSep n p [rParen] ;;
            expect [rParen] ;;
            ret cs
          else ret []) ;;
   K xs) l
  = if next_is lParen l
    then (pop ;; cs <- parseCommaSep n p [rParen] ;; expect [rParen] ;; K cs) l
    else K [] l.
Proof.
  unfold bind at 1. rewrite hasMoreAndPeekIs_eq.
  destruct (next_is lParen l); [|reflexivity].
  unfold bind. destruct (pop l) as [? l1| |]; try reflexivity.
  destruct (parseCommaSep n p [rParen] l1) as [cs l2| |]; try reflexivity.
  destruct (expect [rParen] l2); reflexivity.
Qed.

Lemma next_is_cons ty l :
  next_is ty l = true -> exists t r, l = t :: r /\ type t = ty.
Proof.
  destruct l as [|t r]; [discriminate|]. simpl. intros H.
  exists t, r. split; [reflexivity | apply TT_beq_eq; exact H].
Qed.

Lemma expect_Ok_inv allowed l t l' :
  expect allowed l = Ok t l' ->
  l = t :: l' /\ includes allowed (type t) = true.
Proof.
  destruct l as [|t0 r]; [discriminate|]. unfold expect.
  destruct (includes allowed (type t0)) eqn:E; [|discriminate].
  intros H. inversion H; subst. auto.
Qed.

Lemma includes_single ty x : includes [ty] x = true -> x = ty.
Proof.
  unfold includes. simpl. rewrite orb_false_r. apply TT_beq_eq.
Qed.

(** What a successful run through the parenthesized list looks like: the
    list is empty exactly for [( )]. *)
Lemma paren_list_Ok_inv {T B} n (p : Parser T) (K : list T -> Parser B)
      l b l' :
  next_is lParen l = true ->
  (pop ;; cs <- parseCommaSep n p [rParen] ;; expect [rParen] ;; K cs) l
    = Ok b l' ->
  exists lp l1 cs rp l2,
    l = lp :: l1 /\ type lp = lParen /\
    parseCommaSep n p [rParen] l1 = Ok cs (rp :: l2) /\
    type rp = rParen /\ K cs l2 = Ok b l' /\
    (cs = [] <-> at_stop [rParen] l1 = true) /\
    (cs = [] -> l1 = rp :: l2).
Proof.
  intros Hn H. apply next_is_cons in Hn. destruct Hn as (lp & l1 & -> & Hlp).
  unfold bind at 1 in H. simpl in H.
  apply bind_Ok_inv in H. destruct H as (cs & l2' & Hcs & H).
  apply bind_Ok_inv in H. destruct H as (rp & l2 & Hrp & H).
  apply expect_Ok_inv in Hrp. destruct Hrp as [-> Hrp].
  apply includes_single in Hrp.
  exists lp, l1, cs, rp, l2.
  pose proof (parseCommaSep_Ok _ _ _ _ Hcs) as [_ Hiff].
  repeat split; try assumption; try apply Hiff.
  intros ->. rewrite parseCommaSep_at_stop in Hcs by (apply Hiff; reflexivity).
  inversion Hcs. reflexivity.
Qed.

Lemma start_text_ident start : type start = ident -> start_text start = text start.
Proof. unfold start_text. intros ->. reflexivity. Qed.

(** ** Identifiers: variable or application *)

(** C1, as the code has it. An identifier not followed by [(] is a
    [VarTerm]. An identifier followed by [(] is an [AppTerm] exactly when
    the parenthesized list has at least one argument; on an empty list
    [( )] the rule returns a [VarTerm]. *)
Theorem ident_var_or_app n start rest :
  type start = ident ->
  (next_is lParen rest = false ->
   parseTreeOrVarOrApp (S n) (start :: rest)
     = Ok (VarTerm (text start)) rest)
  /\ (forall t l',
        parseTreeOrVarOrApp n (start :: rest) = Ok t l' ->
        next_is lParen rest = true ->
        (at_stop [rParen] (tl rest) = true /\
         t = VarTerm (text start) /\
         exists lp rp, rest = lp :: rp :: l' /\ type rp = rParen)
        \/ (at_stop [rParen] (tl rest) = false /\
            exists rands, rands <> [] /\ t = AppTerm (text start) rands)).
Proof.
  intros Hty.
  assert (Hexp : forall k,
             parseTreeOrVarOrApp (S k) (start :: rest) =
             (if next_is lParen rest
              then (pop ;; cs <- parseCommaSep k (parseTerm k) [rParen] ;;
                    expect [rParen] ;;
                    if Nat.ltb 0 (List.length cs)
                    then ret (AppTerm (text start) cs)
                    else ret (VarTerm (text start))) rest
              else Ok (VarTerm (text start)) rest)).
  { intros k. rewrite parseTreeOrVarOrApp_S. unfold bind at 1.
    unfold expect. rewrite Hty. simpl includes. cbv iota.
    rewrite (opt_paren_list k (parseTerm k)
               (fun terms =>
                  if TT_beq (type start) ident
                  then if Nat.ltb 0 (List.length terms)
                       then ret (AppTerm (start_text start) terms)
                       else ret (VarTerm (start_text start))
                  else ret (TreeTerm (start_text start) terms))).
    rewrite Hty, (start_text_ident _ Hty). reflexivity. }
  split.
  - intros Hn. rewrite Hexp, Hn. reflexivity.
  - intros t l' H Hn. destruct n as [|k]; [discriminate|].
    rewrite Hexp, Hn in H.
    apply (paren_list_Ok_inv k (parseTerm k)
             (fun cs => if Nat.ltb 0 (List.length cs)
                        then ret (AppTerm (text start) cs)
                        else ret (VarTerm (text start))) rest Hn) in H.
    destruct H as (lp & l1 & cs & rp & l2 & -> & Hlp & Hcs & Hrp & HK
                   & Hiff & Hnil).
    simpl tl. destruct cs as [|x cs]; simpl in HK; inversion HK; subst.
    + left. split; [apply Hiff; reflexivity|]. split; [reflexivity|].
      exists lp, rp. rewrite (Hnil eq_refl). auto.
    + right. split.
      * destruct (at_stop [rParen] l1) eqn:E; [|reflexivity].
        destruct Hiff as [_ Hiff]. discriminate (Hiff eq_refl).
      * exists (x :: cs). split; [discriminate | reflexivity].
Qed.

Lemma ident_var_or_app_witness :
  type (tk ident "f") = ident
  /\ parseTreeOrVarOrApp 1 [tk ident "f"; tk semi ";"]
     = Ok (VarTerm "f") [tk semi ";"]
  /\ parseTreeOrVarOrApp 4 toks_call_two_args
     = Ok (AppTerm "f" [TreeTerm "1" []; TreeTerm "2" []]) []
  /\ at_stop [rParen] (tl (tl toks_call_two_args)) = false.
Proof.
  assert (Happ : parseTreeOrVarOrApp 4 toks_call_two_args
                 = Ok (AppTerm "f" [TreeTerm "1" []; TreeTerm "2" []]) [])
    by reflexivity.
  split; [reflexivity|]. split; [|split; [exact Happ|]].
  - apply (ident_var_or_app 0 (tk ident "f") [tk semi ";"]); reflexivity.
  - destruct (ident_var_or_app 4 (tk ident "f") (tl toks_call_two_args)
                eq_refl) as [_ H].
    destruct (H _ _ Happ eq_refl) as [(_ & E & _)|(Hstop & _)];
      [discriminate E | exact Hstop].
Defined.

(** C1, as the specification states it, fails on [f ( )]: the identifier
    is immediately followed by [(], and the rule returns a [VarTerm]. *)
Lemma ident_empty_parens_is_var :
  next_is lParen (tl toks_call_no_args) = true
  /\ parseTreeOrVarOrApp 1 toks_call_no_args = Ok (VarTerm "f") []
  /\ ~ (exists rands l',
          parseTreeOrVarOrApp 1 toks_call_no_args
          = Ok (AppTerm "f" rands) l').
Proof.
  split; [reflexivity|]. split; [reflexivity|].
  intros (rands & l' & H). discriminate H.
Qed.

(** ** Definitions *)

Lemma parseDef_eq n letTok nameTok rest :
  type letTok = letKw -> type nameTok = ident ->
  parseDef n (letTok :: nameTok :: rest) =
  let K := fun pats =>
             expect [eq_] ;;
             body_ <- parseTerm n ;;
             ret {| name := text nameTok; patterns := pats; body := body_ |} in
  if next_is lParen rest
  then (pop ;; ps <- parseCommaSep n (parsePattern n) [rParen] ;;
        expect [rParen] ;; K ps) rest
  else K [] rest.
Proof.
  intros Hl Hn. unfold parseDef. unfold bind at 1. unfold expect at 1.
  rewrite Hl. simpl includes. cbv iota.
  unfold bind at 1. unfold expect at 1.
  rewrite Hn. simpl includes. cbv iota.
  apply (opt_paren_list n (parsePattern n)
           (fun pats =>
              expect [eq_] ;;
              body_ <- parseTerm n ;;
              ret {| name := text nameTok; patterns := pats;
                     body := body_ |})).
Qed.

Lemma parseDef_Ok_start n l d l' :
  parseDef n l = Ok d l' ->
  exists letTok nameTok rest,
    l = letTok :: nameTok :: rest /\ type letTok = letKw /\
    type nameTok = ident.
Proof.
  unfold parseDef. intros H.
  apply bind_Ok_inv in H. destruct H as (letTok & l1 & Hlet & H).
  apply bind_Ok_inv in H. destruct H as (nameTok & l2 & Hname & _).
  apply expect_Ok_inv in Hlet, Hname.
  destruct Hlet as [-> Hlet]. destruct Hname as [-> Hname].
  exists letTok, nameTok, l2.
  split; [reflexivity|]. split; apply includes_single; assumption.
Qed.

(** C2, as the code has it. For every [Def] that [parseDef] returns, the
    [patterns] field is empty exactly when no [(] follows the name or the
    parenthesized list is the empty [( )]; and [let f ( ) = body] gives the
    same [Def] as [let f = body]. *)
Theorem parseDef_patterns_empty n letTok nameTok rest d l' :
  parseDef n (letTok :: nameTok :: rest) = Ok d l' ->
  (patterns d = [] <->
   next_is lParen rest = false \/
   exists lp rp r, rest = lp :: rp :: r /\ type lp = lParen /\ type rp = rParen)
  /\ (forall lp rp r,
        rest = lp :: rp :: r -> type lp = lParen -> type rp = rParen ->
        next_is lParen r = false ->
        parseDef n (letTok :: nameTok :: r) = Ok d l').
Proof.
  intros H.
  destruct (parseDef_Ok_start _ _ H) as (lt & nt & r0 & E & Hl & Hn).
  inversion E; subst lt nt r0. clear E.
  pose proof H as H0.
  rewrite parseDef_eq in H by assumption. cbv zeta in H.
  split.
  - destruct (next_is lParen rest) eqn:Enext.
    + apply (paren_list_Ok_inv n (parsePattern n) _ rest Enext) in H.
      destruct H as (lp & l1 & cs & rp & l2 & -> & Hlp & Hcs & Hrp & HK
                     & Hiff & Hnil).
      apply bind_Ok_inv in HK. destruct HK as (? & ? & _ & HK).
      apply bind_Ok_inv in HK. destruct HK as (b & ? & _ & HK).
      inversion HK; subst. simpl patterns. split.
      * intros ->. right. exists lp, rp, l2.
        rewrite (Hnil eq_refl). auto.
      * intros [Hf|(lp' & rp' & r & E & _ & Hrp')]; [discriminate|].
        inversion E; subst. apply Hiff. simpl.
        rewrite Hrp'. reflexivity.
    + apply bind_Ok_inv in H. destruct H as (? & ? & _ & H).
      apply bind_Ok_inv in H. destruct H as (b & ? & _ & H).
      inversion H; subst. simpl. split; auto.
  - intros lp rp r -> Hlp Hrp Hr.
    rewrite parseDef_eq by assumption. rewrite Hr. cbv zeta.
    assert (Enext : next_is lParen (lp :: rp :: r) = true)
      by (simpl; rewrite Hlp; reflexivity).
    rewrite Enext in H. unfold bind at 1 in H. simpl pop in H.
    unfold bind at 1 in H.
    rewrite parseCommaSep_at_stop in H by (simpl; rewrite Hrp; reflexivity).
    unfold bind at 1 in H. unfold expect at 1 in H.
    rewrite Hrp in H. exact H.
Qed.

Lemma parseDef_patterns_empty_witness :
  parseDef 4 toks_def_id
  = Ok {| name := "id"; patterns := [VarPattern "x"]; body := VarTerm "x" |} []
  /\ ([VarPattern "x"] = [] <->
      next_is lParen (skipn 2 toks_def_id) = false \/
      exists lp rp r, skipn 2 toks_def_id = lp :: rp :: r /\
                      type lp = lParen /\ type rp = rParen).
Proof.
  assert (H : parseDef 4 toks_def_id
              = Ok {| name := "id"; patterns := [VarPattern "x"];
                      body := VarTerm "x" |} []) by reflexivity.
  split; [exact H|].
  apply (parseDef_patterns_empty 4 (tk letKw "let") (tk ident "id")
           (skipn 2 toks_def_id) H).
Defined.

(** C2, as the specification states it, fails on [let f ( ) = x]: a
    parenthesized parameter list follows the name, the [patterns] field is
    empty, and the [Def] is the one of [let f = x]. *)
Lemma parseDef_empty_parens_indistinguishable :
  next_is lParen (skipn 2 toks_def_empty_parens) = true
  /\ parseDef 3 toks_def_empty_parens
     = Ok {| name := "f"; patterns := []; body := VarTerm "x" |} []
  /\ parseDef 3 toks_def_no_parens
     = Ok {| name := "f"; patterns := []; body := VarTerm "x" |} [].
Proof. repeat split. Qed.

(** ** Match expressions *)

(** C3 fails on the code: [match { }], with no subject term before the
    [{], is accepted, and the [MatchTerm] has an empty [terms] list. *)
Theorem parseMatchTerm_accepts_no_subject :
  parseMatchTerm 1 toks_match_no_subject = Ok (MatchTerm [] []) []
  /\ parseProgram (toks_match_no_subject ++ [tk semi ";"])
     = Ok [ItemTerm (MatchTerm [] [])] [].
Proof. split; reflexivity. Qed.

(** On any stream [match { ...], the subjects are the empty list. *)
Lemma parseMatchTerm_no_subject n m_ lc rest :
  type m_ = matchKw -> type lc = lCurly ->
  parseMatchTerm (S n) (m_ :: lc :: rest) =
  (clauses <- parseCommaSep n (parseMatchClause n) [rCurly] ;;
   expect [rCurly] ;;
   ret (MatchTerm [] clauses)) rest.
Proof.
  intros Hm Hlc. rewrite parseMatchTerm_S.
  unfold bind at 1. unfold expect at 1. rewrite Hm. simpl includes. cbv iota.
  unfold bind at 1.
  rewrite parseCommaSep_at_stop by (simpl; rewrite Hlc; reflexivity).
  unfold bind at 1. unfold expect at 1. rewrite Hlc. reflexivity.
Qed.

(** ** Atoms *)

Lemma atom_not_ident ty :
  includes [bareAtom; quotedAtom] ty = true ->
  TT_beq ty ident = false /\
  includes [bareAtom; quotedAtom; ident] ty = true.
Proof. destruct ty; simpl; intros H; try discriminate; auto. Qed.

Lemma parseTreeOrVarOrApp_atom n start rest t l' :
  includes [bareAtom; quotedAtom] (type start) = true ->
  parseTreeOrVarOrApp n (start :: rest) = Ok t l' ->
  exists children, t = TreeTerm (start_text start) children.
Proof.
  intros Hatom H. destruct (atom_not_ident _ Hatom) as [Hni _].
  destruct n as [|n]; [discriminate|]. rewrite parseTreeOrVarOrApp_S in H.
  apply bind_Ok_inv in H. destruct H as (s0 & l1 & Hs & H).
  apply expect_Ok_inv in Hs. destruct Hs as [E _]. inversion E; subst s0 l1.
  apply bind_Ok_inv in H. destruct H as (paren & l2 & _ & H).
  apply bind_Ok_inv in H. destruct H as (terms & l3 & _ & H).
  rewrite Hni in H. inversion H; subst. exists terms. reflexivity.
Qed.

Lemma parseTreePattern_atom n start rest p l' :
  parseTreePattern n (start :: rest) = Ok p l' ->
  exists children, p = TreePattern (start_text start) children.
Proof.
  intros H. destruct n as [|n]; [discriminate|].
  rewrite parseTreePattern_S in H.
  apply bind_Ok_inv in H. destruct H as (s0 & l1 & Hs & H).
  apply expect_Ok_inv in Hs. destruct Hs as [E _]. inversion E; subst s0 l1.
  apply bind_Ok_inv in H. destruct H as (paren & l2 & _ & H).
  apply bind_Ok_inv in H. destruct H as (children & l3 & _ & H).
  inversion H; subst. exists children. reflexivity.
Qed.

Lemma parseTerm1_atom n start rest :
  includes [bareAtom; quotedAtom] (type start) = true ->
  parseTerm1 (S n) (start :: rest) = parseTreeOrVarOrApp n (start :: rest).
Proof.
  intros Hatom. destruct (atom_not_ident _ Hatom) as [_ Hin].
  rewrite parseTerm1_S. unfold bind, peek. rewrite Hin. reflexivity.
Qed.

Lemma parsePattern1_atom n start rest :
  includes [bareAtom; quotedAtom] (type start) = true ->
  parsePattern1 (S n) (start :: rest) = parseTreePattern n (start :: rest).
Proof.
  intros Hatom. rewrite parsePattern1_S. unfold bind, peek.
  rewrite Hatom. reflexivity.
Qed.

Lemma parseTreeOrVarOrApp_atom_eq n start rest :
  includes [bareAtom; quotedAtom] (type start) = true ->
  parseTreeOrVarOrApp (S n) (start :: rest) =
  if next_is lParen rest
  then (pop ;; cs <- parseCommaSep n (parseTerm n) [rParen] ;;
        expect [rParen] ;; ret (TreeTerm (start_text start) cs)) rest
  else Ok (TreeTerm (start_text start) []) rest.
Proof.
  intros Hatom. destruct (atom_not_ident _ Hatom) as [Hni Hin].
  rewrite parseTreeOrVarOrApp_S. unfold bind at 1. unfold expect.
  rewrite Hin.
  rewrite (opt_paren_list n (parseTerm n)
             (fun terms =>
                if TT_beq (type start) ident
                then if Nat.ltb 0 (List.length terms)
                     then ret (AppTerm (start_text start) terms)
                     else ret (VarTerm (start_text start))
                else ret (TreeTerm (start_text start) terms))).
  rewrite Hni. reflexivity.
Qed.

Lemma parseTreePattern_atom_eq n start rest :
  includes [bareAtom; quotedAtom] (type start) = true ->
  parseTreePattern (S n) (start :: rest) =
  if next_is lParen rest
  then (pop ;; cs <- parseCommaSep n (parsePattern n) [rParen] ;;
        expect [rParen] ;; ret (TreePattern (start_text start) cs)) rest
  else Ok (TreePattern (start_text start) []) rest.
Proof.
  intros Hatom. rewrite parseTreePattern_S. unfold bind at 1. unfold expect.
  rewrite Hatom.
  rewrite (opt_paren_list n (parsePattern n)
             (fun children =>
                ret (TreePattern (start_text start) children))).
  reflexivity.
Qed.

(** An atom, [(], a comma-separated list that parses, and [)]. *)
Lemma paren_list_Ok {T B} n (p : Parser T) (K : list T -> Parser B)
      lp l1 cs rp l' :
  type rp = rParen ->
  parseCommaSep n p [rParen] l1 = Ok cs (rp :: l') ->
  (pop ;; xs <- parseCommaSep n p [rParen] ;; expect [rParen] ;; K xs)
    (lp :: l1)
  = K cs l'.
Proof.
  intros Hrp Hcs. unfold bind, pop. rewrite Hcs.
  unfold expect, includes. simpl. rewrite Hrp. reflexivity.
Qed.

(** C4. On a bare-atom or quoted-atom start token the term rules return
    a [TreeTerm] and the pattern rules a [TreePattern], whatever follows
    and never a variable: with no [(] after the atom the node has no
    children; with a parenthesized list after it, whenever the list parses
    and [)] follows, the node is returned with exactly the parsed list as
    its children, however many there are; and whenever a rule returns, its
    result is that node. *)
Theorem atom_yields_tree n start rest :
  includes [bareAtom; quotedAtom] (type start) = true ->
  (forall t l', parseTreeOrVarOrApp n (start :: rest) = Ok t l' ->
                exists children, t = TreeTerm (start_text start) children)
  /\ (forall t l', parseTerm1 n (start :: rest) = Ok t l' ->
                   exists children, t = TreeTerm (start_text start) children)
  /\ (forall p l', parseTreePattern n (start :: rest) = Ok p l' ->
                   exists children, p = TreePattern (start_text start) children)
  /\ (forall p l', parsePattern1 n (start :: rest) = Ok p l' ->
                   exists children, p = TreePattern (start_text start) children)
  /\ (next_is lParen rest = false ->
      parseTreeOrVarOrApp (S n) (start :: rest)
        = Ok (TreeTerm (start_text start) []) rest
      /\ parseTreePattern (S n) (start :: rest)
        = Ok (TreePattern (start_text start) []) rest)
  /\ (next_is lParen rest = false ->
      parseTerm1 (S (S n)) (start :: rest)
        = Ok (TreeTerm (start_text start) []) rest
      /\ parsePattern1 (S (S n)) (start :: rest)
        = Ok (TreePattern (start_text start) []) rest)
  /\ (forall lp l1 children rp l',
        rest = lp :: l1 -> type lp = lParen -> type rp = rParen ->
        parseCommaSep n (parseTerm n) [rParen] l1 = Ok children (rp :: l') ->
        parseTreeOrVarOrApp (S n) (start :: rest)
          = Ok (TreeTerm (start_text start) children) l'
        /\ parseTerm1 (S (S n)) (start :: rest)
          = Ok (TreeTerm (start_text start) children) l')
  /\ (forall lp l1 children rp l',
        rest = lp :: l1 -> type lp = lParen -> type rp = rParen ->
        parseCommaSep n (parsePattern n) [rParen] l1
          = Ok children (rp :: l') ->
        parseTreePattern (S n) (start :: rest)
          = Ok (TreePattern (start_text start) children) l'
        /\ parsePattern1 (S (S n)) (start :: rest)
          = Ok (TreePattern (start_text start) children) l')
  /\ (forall t l',
        next_is lParen rest = true ->
        parseTreeOrVarOrApp (S n) (start :: rest) = Ok t l' ->
        exists children rp,
          parseCommaSep n (parseTerm n) [rParen] (tl rest)
            = Ok children (rp :: l')
          /\ type rp = rParen
          /\ t = TreeTerm (start_text start) children)
  /\ (forall p l',
        next_is lParen rest = true ->
        parseTreePattern (S n) (start :: rest) = Ok p l' ->
        exists children rp,
          parseCommaSep n (parsePattern n) [rParen] (tl rest)
            = Ok children (rp :: l')
          /\ type rp = rParen
          /\ p = TreePattern (start_text start) children).
Proof.
  intros Hatom. destruct (atom_not_ident _ Hatom) as [Hni Hin].
  assert (Hno : next_is lParen rest = false ->
                parseTreeOrVarOrApp (S n) (start :: rest)
                  = Ok (TreeTerm (start_text start) []) rest
                /\ parseTreePattern (S n) (start :: rest)
                  = Ok (TreePattern (start_text start) []) rest).
  { intros Hn. rewrite parseTreeOrVarOrApp_atom_eq by exact Hatom.
    rewrite parseTreePattern_atom_eq by exact Hatom.
    rewrite Hn. split; reflexivity. }
  assert (HtermL : forall lp l1 children rp l',
             rest = lp :: l1 -> type lp = lParen -> type rp = rParen ->
             parseCommaSep n (parseTerm n) [rParen] l1
               = Ok children (rp :: l') ->
             parseTreeOrVarOrApp (S n) (start :: rest)
               = Ok (TreeTerm (start_text start) children) l').
  { intros lp l1 children rp l' -> Hlp Hrp Hcs.
    rewrite parseTreeOrVarOrApp_atom_eq by exact Hatom.
    unfold next_is. rewrite Hlp. simpl TT_beq. cbv iota.
    apply (@paren_list_Ok _ _ n (parseTerm n)
             (fun cs => ret (TreeTerm (start_text start) cs))
             lp l1 children rp l' Hrp Hcs). }
  assert (HpatL : forall lp l1 children rp l',
             rest = lp :: l1 -> type lp = lParen -> type rp = rParen ->
             parseCommaSep n (parsePattern n) [rParen] l1
               = Ok children (rp :: l') ->
             parseTreePattern (S n) (start :: rest)
               = Ok (TreePattern (start_text start) children) l').
  { intros lp l1 children rp l' -> Hlp Hrp Hcs.
    rewrite parseTreePattern_atom_eq by exact Hatom.
    unfold next_is. rewrite Hlp. simpl TT_beq. cbv iota.
    apply (@paren_list_Ok _ _ n (parsePattern n)
             (fun cs => ret (TreePattern (start_text start) cs))
             lp l1 children rp l' Hrp Hcs). }
  split; [|split; [|split; [|split; [|split; [|split; [|split;
    [|split; [|split]]]]]]]].
  - intros t l'. apply parseTreeOrVarOrApp_atom. exact Hatom.
  - intros t l' H. destruct n as [|n]; [discriminate|].
    rewrite parseTerm1_atom in H by exact Hatom.
    eapply parseTreeOrVarOrApp_atom; eassumption.
  - intros p l'. apply parseTreePattern_atom.
  - intros p l' H. destruct n as [|n]; [discriminate|].
    rewrite parsePattern1_atom in H by exact Hatom.
    eapply parseTreePattern_atom; eassumption.
  - exact Hno.
  - intros Hn. rewrite parseTerm1_atom, parsePattern1_atom by exact Hatom.
    exact (Hno Hn).
  - intros lp l1 children rp l' E Hlp Hrp Hcs.
    rewrite parseTerm1_atom by exact Hatom.
    split; apply (HtermL lp l1 children rp l' E Hlp Hrp Hcs).
  - intros lp l1 children rp l' E Hlp Hrp Hcs.
    rewrite parsePattern1_atom by exact Hatom.
    split; apply (HpatL lp l1 children rp l' E Hlp Hrp Hcs).
  - intros t l' Hn H.
    rewrite parseTreeOrVarOrApp_atom_eq in H by exact Hatom.
    rewrite Hn in H.
    apply (paren_list_Ok_inv n (parseTerm n)
             (fun cs => ret (TreeTerm (start_text start) cs)) rest Hn) in H.
    destruct H as (lp & l1 & cs & rp & l2 & -> & Hlp & Hcs & Hrp & HK & _).
    inversion HK; subst. exists cs, rp. simpl tl. auto.
  - intros p l' Hn H.
    rewrite parseTreePattern_atom_eq in H by exact Hatom.
    rewrite Hn in H.
    apply (paren_list_Ok_inv n (parsePattern n)
             (fun cs => ret (TreePattern (start_text start) cs)) rest Hn)
      in H.
    destruct H as (lp & l1 & cs & rp & l2 & -> & Hlp & Hcs & Hrp & HK & _).
    inversion HK; subst. exists cs, rp. simpl tl. auto.
Qed.

Lemma atom_yields_tree_witness :
  includes [bareAtom; quotedAtom] (type (tk quotedAtom "'nil'")) = true
  /\ parseTreeOrVarOrApp 1 [tk quotedAtom "'nil'"; tk semi ";"]
     = Ok (TreeTerm "nil" []) [tk semi ";"]
  /\ includes [bareAtom; quotedAtom] (type (tk bareAtom "cons")) = true
  /\ parseCommaSep 3 (parseTerm 3) [rParen] (skipn 2 toks_atom_call)
     = Ok [TreeTerm "1" []; TreeTerm "nil" []] [tk rParen ")"]
  /\ parseCommaSep 3 (parsePattern 3) [rParen] (skipn 2 toks_atom_call)
     = Ok [TreePattern "1" []; TreePattern "nil" []] [tk rParen ")"]
  /\ parseTerm1 5 toks_atom_call
     = Ok (TreeTerm "cons" [TreeTerm "1" []; TreeTerm "nil" []]) []
  /\ parsePattern1 5 toks_atom_call
     = Ok (TreePattern "cons" [TreePattern "1" []; TreePattern "nil" []]) [].
Proof.
  assert (Ht : parseCommaSep 3 (parseTerm 3) [rParen]
                 (skipn 2 toks_atom_call)
               = Ok [TreeTerm "1" []; TreeTerm "nil" []] [tk rParen ")"])
    by reflexivity.
  assert (Hp : parseCommaSep 3 (parsePattern 3) [rParen]
                 (skipn 2 toks_atom_call)
               = Ok [TreePattern "1" []; TreePattern "nil" []]
                    [tk rParen ")"])
    by reflexivity.
  split; [reflexivity|]. split.
  { apply (atom_yields_tree 0 (tk quotedAtom "'nil'") [tk semi ";"]);
      reflexivity. }
  split; [reflexivity|]. split; [exact Ht|]. split; [exact Hp|].
  destruct (@atom_yields_tree 3 (tk bareAtom "cons") (tl toks_atom_call)
              eq_refl) as (_ & _ & _ & _ & _ & _ & HT & HP & _).
  split.
  - apply (HT (tk lParen "(") (skipn 2 toks_atom_call)
              [TreeTerm "1" []; TreeTerm "nil" []] (tk rParen ")") []
              eq_refl eq_refl eq_refl Ht).
  - apply (HP (tk lParen "(") (skipn 2 toks_atom_call)
              [TreePattern "1" []; TreePattern "nil" []] (tk rParen ")") []
              eq_refl eq_refl eq_refl Hp).
Defined.

(** ** As-patterns *)

Lemma parseVarOrAsPattern_at n x at_ rest :
  type x = ident -> type at_ = amp ->
  parseVarOrAsPattern (S n) (x :: at_ :: rest) =
  (p <- parsePattern n ;; ret (AsPattern (text x) p)) rest.
Proof.
  intros Hx Hat. rewrite parseVarOrAsPattern_S.
  unfold bind at 1. unfold expect. rewrite Hx. simpl includes. cbv iota.
  unfold bind at 1. rewrite hasMoreAndPeekIs_eq. unfold next_is.
  rewrite Hat. reflexivity.
Qed.

Lemma parsePattern1_ident n x rest :
  type x = ident ->
  parsePattern1 (S n) (x :: rest) = parseVarOrAsPattern n (x :: rest).
Proof.
  intros Hx. rewrite parsePattern1_S. unfold bind, peek. rewrite Hx.
  reflexivity.
Qed.

(** C10. In a pattern the name binding [x @ ...] takes the whole pattern
    to its right, [:] included: after [x @], [parseVarOrAsPattern] runs
    [parsePattern], so on [x @ p : q] the rule and [parsePattern] return
    [AsPattern x (ConsPattern p q)], which is not
    [ConsPattern (AsPattern x p) q]. *)
Theorem as_pattern_binds_looser n x at_ rest :
  type x = ident -> type at_ = amp ->
  parseVarOrAsPattern (S n) (x :: at_ :: rest)
    = (p <- parsePattern n ;; ret (AsPattern (text x) p)) rest
  /\ (forall p c q l1 l2 m,
        type c = colon ->
        parsePattern1 n rest = Ok p (c :: l1) ->
        parsePattern n l1 = Ok q l2 ->
        n + 2 <= m ->
        parseVarOrAsPattern m (x :: at_ :: rest)
          = Ok (AsPattern (text x) (ConsPattern p q)) l2
        /\ parsePattern (S (S m)) (x :: at_ :: rest)
          = Ok (AsPattern (text x) (ConsPattern p q)) l2
        /\ AsPattern (text x) (ConsPattern p q)
           <> ConsPattern (AsPattern (text x) p) q).
Proof.
  intros Hx Hat. split; [apply parseVarOrAsPattern_at; assumption|].
  intros p c q l1 l2 m Hc Hp Hq Hm.
  destruct m as [|m]; [lia|].
  assert (Hpq : parsePattern m rest = Ok (ConsPattern p q) l2)
    by (eapply parsePattern_cons; [exact Hc | exact Hp | exact Hq | lia]).
  assert (Hv : parseVarOrAsPattern (S m) (x :: at_ :: rest)
               = Ok (AsPattern (text x) (ConsPattern p q)) l2).
  { rewrite parseVarOrAsPattern_at by assumption.
    erewrite bind_Ok by exact Hpq. reflexivity. }
  split; [exact Hv|]. split; [|discriminate].
  rewrite parsePattern_S.
  erewrite bind_Ok
    by (rewrite parsePattern1_ident by exact Hx; exact Hv).
  apply cons_while_no_colon. eapply parsePattern_Ok_no_colon. exact Hpq.
Qed.

Lemma as_pattern_binds_looser_witness :
  type (tk ident "x") = ident
  /\ type (tk amp "@") = amp
  /\ parsePattern 7 toks_as_cons
     = Ok (AsPattern "x" (ConsPattern (TreePattern "p" []) (VarPattern "q")))
          [].
Proof.
  split; [reflexivity|]. split; [reflexivity|].
  destruct (@as_pattern_binds_looser 3 (tk ident "x") (tk amp "@")
              (skipn 2 toks_as_cons) eq_refl eq_refl) as [_ H].
  destruct (H (TreePattern "p" []) (tk colon ":") (VarPattern "q")
              (skipn 4 toks_as_cons) [] 5) as (_ & Hp & _);
    [reflexivity | reflexivity | reflexivity | lia | exact Hp].
Defined.

(** ** Programs *)

Lemma rule_suffix {A} (f : nat -> Parser A) (need : nat -> nat) :
  (forall n m, n <= m -> par_le (f n) (f m)) ->
  (forall n N, need N <= n -> Good N (f n)) ->
  forall n l a l', f n l = Ok a l' -> exists consumed, l = consumed ++ l'.
Proof.
  intros Hmono Hgood n l a l' H.
  assert (E : f (need (List.length l)) l = Ok a l').
  { eapply (fuel_independent f need Hmono Hgood);
      [apply le_n | exact H | apply Ok_not_OutOfFuel]. }
  pose proof (Hgood _ (List.length l) (le_n _) l (le_n _)) as G.
  rewrite E in G. exact G.
Qed.

Lemma parseItem_suffix n l item l' :
  parseItem n l = Ok item l' -> exists consumed, l = consumed ++ l'.
Proof.
  apply (rule_suffix parseItem (fun N => 5 * N + 3)).
  - intros; apply parseItem_fuel_le; assumption.
  - intros; apply parseItem_Good; assumption.
Qed.

Lemma parseDef_suffix n l d l' :
  parseDef n l = Ok d l' -> exists consumed, l = consumed ++ l'.
Proof.
  apply (rule_suffix parseDef (fun N => 5 * N + 3)).
  - intros; apply parseDef_fuel_le; assumption.
  - intros; apply parseDef_Good; assumption.
Qed.

Lemma parseTerm_suffix n l t l' :
  parseTerm n l = Ok t l' -> exists consumed, l = consumed ++ l'.
Proof.
  apply (rule_suffix parseTerm (fun N => 5 * N + 3)).
  - intros; apply parseTerm_fuel_le; assumption.
  - intros; apply parseTerm_Good; assumption.
Qed.

Lemma parsePattern_suffix n l p l' :
  parsePattern n l = Ok p l' -> exists consumed, l = consumed ++ l'.
Proof.
  apply (rule_suffix parsePattern (fun N => 5 * N + 3)).
  - intros; apply parsePattern_fuel_le; assumption.
  - intros; apply parsePattern_Good; assumption.
Qed.

Lemma parseItem_fuel_independent n m l r :
  5 * List.length l + 3 <= m ->
  parseItem n l = r -> r <> OutOfFuel -> parseItem m l = r.
Proof.
  apply (fuel_independent parseItem (fun N => 5 * N + 3)).
  - intros; apply parseItem_fuel_le; assumption.
  - intros; apply parseItem_Good; assumption.
Qed.

Lemma parseProgram_while_nil fuel p items :
  parseProgram_while (S fuel) p items [] = Ok items [].
Proof. reflexivity. Qed.

Lemma parseProgram_while_cons fuel p items t l :
  parseProgram_while (S fuel) p items (t :: l) =
  (item <- p ;; expect [semi] ;;
   parseProgram_while fuel p (items ++ [item])) (t :: l).
Proof. reflexivity. Qed.

Lemma parseItem_Ok_nonempty n l item l' :
  parseItem n l = Ok item l' -> exists t r, l = t :: r.
Proof.
  destruct l as [|t r]; [discriminate|]. intros _. exists t, r. reflexivity.
Qed.

(** A successful loop has read terminated items only, up to the end of
    the input. *)
Lemma parseProgram_while_Ok n fuel :
  forall items l xs l',
    parseProgram_while fuel (parseItem n) items l = Ok xs l' ->
    l' = [] /\ exists more, xs = items ++ more /\ terminated_items n l more [].
Proof.
  induction fuel as [|fuel IH]; intros items l xs l' H; [discriminate|].
  destruct l as [|t l1].
  - rewrite parseProgram_while_nil in H. inversion H; subst.
    split; [reflexivity|]. exists []. rewrite app_nil_r.
    split; [reflexivity | apply ti_nil].
  - rewrite parseProgram_while_cons in H.
    apply bind_Ok_inv in H. destruct H as (item & l2 & Hitem & H).
    apply bind_Ok_inv in H. destruct H as (s & l3 & Hs & H).
    apply expect_Ok_inv in Hs. destruct Hs as [-> Hs].
    apply includes_single in Hs.
    apply IH in H. destruct H as (-> & more & -> & Hrun).
    split; [reflexivity|]. exists (item :: more).
    rewrite <- app_assoc. split; [reflexivity|].
    eapply ti_cons; eassumption.
Qed.

(** The loop follows a run of terminated items. *)
Lemma parseProgram_while_terminated n l more l2 :
  terminated_items n l more l2 ->
  forall k items,
    parseProgram_while (List.length more + k) (parseItem n) items l =
    parseProgram_while k (parseItem n) (items ++ more) l2.
Proof.
  induction 1 as [l|l item s l1 more l' Hitem Hs Hrun IH]; intros k items.
  - rewrite app_nil_r. reflexivity.
  - destruct (parseItem_Ok_nonempty _ _ Hitem) as (t & r & ->).
    simpl List.length. rewrite Nat.add_succ_l, parseProgram_while_cons.
    erewrite bind_Ok by exact Hitem.
    unfold bind at 1. unfold expect. rewrite Hs. simpl includes. cbv iota.
    rewrite IH, <- app_assoc. reflexivity.
Qed.

Lemma terminated_items_length n l items l' :
  terminated_items n l items l' ->
  List.length items + List.length l' <= List.length l.
Proof.
  induction 1 as [l|l item s l1 more l' Hitem Hs Hrun IH]; [simpl; lia|].
  destruct (parseItem_suffix _ _ Hitem) as [consumed ->].
  rewrite length_app. simpl. lia.
Qed.

Lemma terminated_items_fuel n l items l' :
  terminated_items n l items l' ->
  forall m, 5 * List.length l + 3 <= m -> terminated_items m l items l'.
Proof.
  induction 1 as [l|l item s l1 more l' Hitem Hs Hrun IH]; intros m Hm.
  - apply ti_nil.
  - eapply ti_cons; [|exact Hs|].
    + eapply parseItem_fuel_independent;
        [exact Hm | exact Hitem | apply Ok_not_OutOfFuel].
    + apply IH. destruct (parseItem_suffix _ _ Hitem) as [consumed E].
      rewrite E in Hm. rewrite length_app in Hm. simpl in Hm. lia.
Qed.

Lemma terminated_items_last n l items l' :
  terminated_items n l items l' -> l' = nil ->
  l = nil \/ exists pre s, l = pre ++ [s] /\ type s = semi.
Proof.
  induction 1 as [l|l item s l1 more l' Hitem Hs Hrun IH]; intros El'.
  - left. exact El'.
  - right. destruct (parseItem_suffix _ _ Hitem) as [consumed ->].
    destruct (IH El') as [->|(pre & s' & -> & Hs')].
    + exists consumed, s. auto.
    + exists (consumed ++ s :: pre), s'. rewrite <- app_assoc. auto.
Qed.

Lemma parseProgram_not_OutOfFuel l : parseProgram l <> OutOfFuel.
Proof.
  unfold parseProgram. intros E.
  assert (G : Good (List.length l) (parseProgram_fuel (fuel_for l)))
    by (apply parseProgram_fuel_Good; unfold fuel_for; lia).
  specialize (G l (le_n _)). rewrite E in G. exact G.
Qed.

(** C8. [parseProgram] wants a statement terminator after every item,
    the last one included. When it returns, the whole input was a run of
    items each followed by a terminator, returned in input order, so a
    non-empty input ends with a terminator; every such run is accepted;
    when the last item reaches the end of the input with no terminator
    after it, the error of [expect] at the end of the input is raised and
    no items are returned; and an input whose last token is not a
    terminator always raises an error. *)
Theorem parseProgram_terminators l :
  (forall items l',
      parseProgram l = Ok items l' ->
      l' = [] /\ terminated_items (fuel_for l) l items []
      /\ (l = [] \/ exists pre s, l = pre ++ [s] /\ type s = semi))
  /\ (forall n items,
        terminated_items n l items [] -> parseProgram l = Ok items [])
  /\ (forall n items rest item,
        terminated_items n l items rest ->
        parseItem n rest = Ok item [] ->
        parseProgram l = Throw (UnexpectedToken [semi] None))
  /\ (forall pre t,
        l = pre ++ [t] -> type t <> semi ->
        exists e, parseProgram l = Throw e).
Proof.
  assert (Hok : forall items l',
             parseProgram l = Ok items l' ->
             l' = [] /\ terminated_items (fuel_for l) l items []
             /\ (l = [] \/ exists pre s, l = pre ++ [s] /\ type s = semi)).
  { intros items l' H. unfold parseProgram, parseProgram_fuel in H.
    apply parseProgram_while_Ok in H. destruct H as (-> & more & E & Hrun).
    simpl in E. subst more. split; [reflexivity|]. split; [exact Hrun|].
    eapply terminated_items_last; [exact Hrun | reflexivity]. }
  assert (Hfuel : forall n items rest,
             terminated_items n l items rest ->
             exists k,
               parseProgram l =
               parseProgram_while (S k) (parseItem (fuel_for l)) items rest).
  { intros n items rest Hrun.
    pose proof (terminated_items_length Hrun) as Hlen.
    assert (Hrun' : terminated_items (fuel_for l) l items rest)
      by (apply (terminated_items_fuel Hrun); unfold fuel_for; lia).
    exists (fuel_for l - List.length items - 1).
    unfold parseProgram, parseProgram_fuel.
    replace (fuel_for l) with
        (List.length items + S (fuel_for l - List.length items - 1)) at 1
      by (unfold fuel_for; lia).
    apply (parseProgram_while_terminated Hrun' _ []). }
  split; [exact Hok|]. split; [|split].
  - intros n items Hrun. destruct (Hfuel n items [] Hrun) as [k ->].
    apply parseProgram_while_nil.
  - intros n items rest item Hrun Hitem.
    destruct (Hfuel n items rest Hrun) as [k ->].
    destruct (parseItem_Ok_nonempty _ _ Hitem) as (t & r & ->).
    rewrite parseProgram_while_cons.
    assert (Hitem' : parseItem (fuel_for l) (t :: r) = Ok item []).
    { eapply parseItem_fuel_independent;
        [|exact Hitem | apply Ok_not_OutOfFuel].
      pose proof (terminated_items_length Hrun). unfold fuel_for. lia. }
    erewrite bind_Ok by exact Hitem'. reflexivity.
  - intros pre t -> Ht.
    destruct (parseProgram (pre ++ [t])) as [items l'|e|] eqn:E.
    + exfalso. destruct (Hok items l' eq_refl) as (_ & _ & [Hnil|Hlast]).
      * destruct pre; discriminate Hnil.
      * destruct Hlast as (pre' & s & E' & Hs).
        apply app_inj_tail in E'. destruct E' as [_ ->]. contradiction.
    + exists e. reflexivity.
    + exfalso. exact (parseProgram_not_OutOfFuel _ E).
Qed.

Lemma parseProgram_terminators_witness :
  parseItem 5 toks_unterminated
  = Ok (ItemTerm (ConsTerm (TreeTerm "a" []) (TreeTerm "b" []))) []
  /\ parseProgram toks_unterminated = Throw (UnexpectedToken [semi] None).
Proof.
  assert (H : parseItem 5 toks_unterminated
              = Ok (ItemTerm (ConsTerm (TreeTerm "a" []) (TreeTerm "b" []))) [])
    by reflexivity.
  split; [exact H|].
  destruct (parseProgram_terminators toks_unterminated) as (_ & _ & Hlast & _).
  exact (Hlast 5 [] toks_unterminated _ (ti_nil 5 toks_unterminated) H).
Defined.

(** C9. On every token stream [parseProgram] finishes, with the items
    and the whole input consumed or with an error; its result is the one
    of every run with at least as much fuel, and of every run that
    finishes, so it is a function of the token stream alone; and each
    rule leaves a suffix of the cursor it was given: the tokens it
    consumed are a prefix, read once and never gone back to. *)
Theorem parseProgram_total_deterministic l :
  ((exists items, parseProgram l = Ok items []) \/
   (exists e, parseProgram l = Throw e))
  /\ (forall n, fuel_for l <= n -> parseProgram_fuel n l = parseProgram l)
  /\ (forall n, parseProgram_fuel n l <> OutOfFuel ->
                parseProgram_fuel n l = parseProgram l)
  /\ (forall n,
        (forall item l', parseItem n l = Ok item l' ->
                         exists consumed, l = consumed ++ l')
        /\ (forall d l', parseDef n l = Ok d l' ->
                         exists consumed, l = consumed ++ l')
        /\ (forall t l', parseTerm n l = Ok t l' ->
                         exists consumed, l = consumed ++ l')
        /\ (forall p l', parsePattern n l = Ok p l' ->
                         exists consumed, l = consumed ++ l')).
Proof.
  split; [|split; [|split]].
  - destruct (parseProgram l) as [items l'|e|] eqn:E.
    + left. exists items.
      unfold parseProgram, parseProgram_fuel in E.
      apply parseProgram_while_Ok in E. destruct E as [-> _]. reflexivity.
    + right. exists e. reflexivity.
    + exfalso. exact (parseProgram_not_OutOfFuel _ E).
  - intros n Hn. unfold parseProgram.
    eapply par_le_eq;
      [apply (parseProgram_fuel_le Hn) | reflexivity
      | apply parseProgram_not_OutOfFuel].
  - intros n Hn. unfold parseProgram. symmetry.
    eapply (fuel_independent parseProgram_fuel (fun N => 5 * N + 3));
      [ intros; apply parseProgram_fuel_le; assumption
      | intros; apply parseProgram_fuel_Good; assumption
      | unfold fuel_for; lia
      | reflexivity
      | exact Hn ].
  - intros n. split; [|split; [|split]].
    + intros item l'. apply parseItem_suffix.
    + intros d l'. apply parseDef_suffix.
    + intros t l'. apply parseTerm_suffix.
    + intros p l'. apply parsePattern_suffix.
Qed.

Lemma parseProgram_total_deterministic_witness :
  fuel_for toks_terminated <= 100
  /\ parseProgram_fuel 100 toks_terminated = parseProgram toks_terminated.
Proof.
  assert (H : fuel_for toks_terminated <= 100) by (vm_compute; lia).
  split; [exact H|].
  destruct (parseProgram_total_deterministic toks_terminated)
    as (_ & Hfuel & _).
  exact (Hfuel 100 H).
Defined.

(** ** Lookahead: a rule looks at most one token past what it consumes *)

Section LocalParsers.
Context {A B : Type}.

Lemma Local_ret (a : A) : Local (ret a).
Proof.
  intros l a' l' H. inversion H; subst. exists []. split; [reflexivity|].
  intros t r r' _. reflexivity.
Qed.

Lemma Local_throw (e : SyntaxError) : Local (@throw A e).
Proof. intros l a l' H. discriminate H. Qed.

Lemma Local_outOfFuel : Local (@outOfFuel A).
Proof. intros l a l' H. discriminate H. Qed.

Lemma Local_bind (m : Parser A) (k : A -> Parser B) :
  Local m -> (forall a, Local (k a)) -> Local (bind m k).
Proof.
  intros Lm Lk l b l2 H.
  apply bind_Ok_inv in H. destruct H as (a & l1 & Hm & Hk).
  destruct (Lm _ _ _ Hm) as (c1 & -> & Hm').
  destruct (Lk a _ _ _ Hk) as (c2 & -> & Hk').
  exists (c1 ++ c2). split; [apply app_assoc|].
  intros t r r' ->. rewrite <- app_assoc. unfold bind.
  destruct c2 as [|t2 c2].
  - simpl in *. rewrite (Hm' t r r' eq_refl).
    apply (Hk' t r r' eq_refl).
  - simpl in *. rewrite (Hm' t2 _ (c2 ++ t :: r') eq_refl).
    apply (Hk' t r r' eq_refl).
Qed.

Lemma Local_if (b : bool) (p q : Parser A) :
  Local p -> Local q -> Local (if b then p else q).
Proof. destruct b; auto. Qed.
End LocalParsers.

Lemma Local_hasMore : Local hasMore.
Proof.
  intros l b l' H. unfold hasMore in H. inversion H; subst.
  exists []. split; [reflexivity|]. intros t r r' ->. reflexivity.
Qed.

Lemma Local_peek : Local peek.
Proof.
  intros l t0 l' H. destruct l as [|t1 l1]; [discriminate|].
  inversion H; subst. exists []. split; [reflexivity|].
  intros t r r' E. inversion E; subst. reflexivity.
Qed.

Lemma Local_pop : Local pop.
Proof.
  intros l t0 l' H. destruct l as [|t1 l1]; [discriminate|].
  inversion H; subst. exists [t0]. split; [reflexivity|].
  intros t r r' ->. reflexivity.
Qed.

Lemma Local_expect (allowed : list TT) : Local (expect allowed).
Proof.
  intros l t0 l' H. destruct l as [|t1 l1]; [discriminate|].
  unfold expect in H. destruct (includes allowed (type t1)) eqn:E;
    [|discriminate].
  inversion H; subst. exists [t0]. split; [reflexivity|].
  intros t r r' ->. simpl. rewrite E. reflexivity.
Qed.

(** Decomposes a goal [Local body] along the structure of [body]. *)
Ltac local_rules :=
  repeat first
    [ assumption
    | apply Local_ret
    | apply Local_throw
    | apply Local_outOfFuel
    | apply Local_hasMore
    | apply Local_peek
    | apply Local_pop
    | apply Local_expect
    | apply Local_if
    | apply Local_bind
    | intro ].

Lemma Local_hasMoreAndPeekIs (ty : TT) : Local (hasMoreAndPeekIs ty).
Proof. unfold hasMoreAndPeekIs. local_rules. Qed.

Lemma Local_exhaustedOrStop (stopSet : list TT) :
  Local (exhaustedOrStop stopSet).
Proof. unfold exhaustedOrStop. local_rules. Qed.

Lemma Local_cons_while {A} (mk : A -> A -> A) (parseTail : Parser A) :
  Local parseTail ->
  forall fuel acc, Local (cons_while fuel parseTail mk acc).
Proof.
  intros Lp. induction fuel as [|fuel IH]; intros acc.
  - apply Local_outOfFuel.
  - simpl. apply Local_bind; [apply Local_hasMoreAndPeekIs|].
    intros c. apply Local_if; [|apply Local_ret].
    apply Local_bind; [apply Local_pop|]. intros _.
    apply Local_bind; [exact Lp|]. intros tail. apply IH.
Qed.

Lemma Local_parseCommaSep_while {T} (parseElt : Parser T)
      (stopSet : list TT) :
  Local parseElt ->
  forall fuel elts, Local (parseCommaSep_while fuel parseElt stopSet elts).
Proof.
  intros Lp. induction fuel as [|fuel IH]; intros elts.
  - apply Local_outOfFuel.
  - simpl. apply Local_bind; [apply Local_hasMore|]. intros more.
    apply Local_if; [apply Local_ret|].
    apply Local_bind; [apply Local_peek|]. intros tok.
    apply Local_if; [apply Local_ret|].
    apply Local_bind; [apply Local_expect|]. intros _.
    apply Local_bind; [apply Local_exhaustedOrStop|]. intros stop.
    apply Local_if; [apply Local_ret|].
    apply Local_bind; [exact Lp|]. intros x. apply IH.
Qed.

Lemma Local_parseCommaSep {T} (parseElt : Parser T) (stopSet : list TT)
      (fuel : nat) :
  Local parseElt -> Local (parseCommaSep fuel parseElt stopSet).
Proof.
  intros Lp. unfold parseCommaSep.
  apply Local_bind; [apply Local_exhaustedOrStop|]. intros stop.
  apply Local_if; [apply Local_ret|].
  apply Local_bind; [exact Lp|]. intros x.
  apply Local_parseCommaSep_while. exact Lp.
Qed.

Ltac local_grammar :=
  repeat first
    [ assumption
    | apply Local_hasMoreAndPeekIs
    | apply Local_cons_while
    | apply Local_parseCommaSep
    | apply Local_ret
    | apply Local_throw
    | apply Local_outOfFuel
    | apply Local_peek
    | apply Local_pop
    | apply Local_expect
    | apply Local_if
    | apply Local_bind
    | intro ].

Lemma pattern_Local n :
  Local (parsePattern n) /\ Local (parsePattern1 n) /\
  Local (parseTreePattern n) /\ Local (parseVarOrAsPattern n).
Proof.
  induction n as [|n (IH & IH1 & IHT & IHV)].
  - repeat split; apply Local_outOfFuel.
  - repeat split.
    + rewrite parsePattern_S. local_grammar.
    + rewrite parsePattern1_S. local_grammar.
    + rewrite parseTreePattern_S. local_grammar.
    + rewrite parseVarOrAsPattern_S. local_grammar.
Qed.

Lemma term_Local n :
  Local (parseTerm n) /\ Local (parseTerm1 n) /\
  Local (parseTreeOrVarOrApp n) /\ Local (parseMatchTerm n) /\
  Local (parseMatchClause n).
Proof.
  induction n as [|n (IH & IH1 & IHT & IHM & IHC)].
  - repeat split; apply Local_outOfFuel.
  - pose proof (pattern_Local n) as (HP & _).
    repeat split.
    + rewrite parseTerm_S. local_grammar.
    + rewrite parseTerm1_S. local_grammar.
    + rewrite parseTreeOrVarOrApp_S. local_grammar.
    + rewrite parseMatchTerm_S. local_grammar.
    + rewrite parseMatchClause_S. local_grammar.
Qed.

Lemma parseDef_Local n : Local (parseDef n).
Proof.
  pose proof (pattern_Local n) as (HP & _).
  pose proof (term_Local n) as (HT & _).
  unfold parseDef. local_grammar.
Qed.

Lemma parseItem_Local n : Local (parseItem n).
Proof.
  pose proof (parseDef_Local n) as HD.
  pose proof (term_Local n) as (HT & _).
  unfold parseItem. local_grammar.
Qed.

Lemma Local_tail {A} (p : Parser A) consumed t r r' a :
  Local p ->
  p (consumed ++ t :: r) = Ok a (t :: r) ->
  p (consumed ++ t :: r') = Ok a (t :: r').
Proof.
  intros Lp H. destruct (Lp _ _ _ H) as (c & E & Hc).
  apply app_inv_tail in E. subst c. apply (Hc t r r' eq_refl).
Qed.

(** X1. One token of lookahead. When an exported rule returns in front of a
    token [t], it returns the same value in front of [t] whatever follows
    [t]: the result depends only on the consumed tokens and on [t]. *)
Theorem rules_look_one_token_ahead n consumed t r r' :
  (forall a, parseTerm n (consumed ++ t :: r) = Ok a (t :: r) ->
             parseTerm n (consumed ++ t :: r') = Ok a (t :: r'))
  /\ (forall a, parsePattern n (consumed ++ t :: r) = Ok a (t :: r) ->
                parsePattern n (consumed ++ t :: r') = Ok a (t :: r'))
  /\ (forall a, parseDef n (consumed ++ t :: r) = Ok a (t :: r) ->
                parseDef n (consumed ++ t :: r') = Ok a (t :: r'))
  /\ (forall a, parseItem n (consumed ++ t :: r) = Ok a (t :: r) ->
                parseItem n (consumed ++ t :: r') = Ok a (t :: r')).
Proof.
  split; [|split; [|split]]; intros a; apply Local_tail.
  - apply term_Local.
  - apply pattern_Local.
  - apply parseDef_Local.
  - apply parseItem_Local.
Qed.

(** ** Programs: concatenation and the first error *)

Lemma terminated_items_ext n l items l' ext :
  terminated_items n l items l' ->
  terminated_items n (l ++ ext) items (l' ++ ext).
Proof.
  induction 1 as [l|l item s l1 more l' Hitem Hs Hrun IH].
  - apply ti_nil.
  - eapply ti_cons; [|exact Hs|exact IH].
    pose proof (parseItem_Local n) as HL.
    destruct (HL _ _ _ Hitem) as (c & -> & Hc).
    rewrite <- app_assoc. simpl. apply (Hc s l1 (l1 ++ ext) eq_refl).
Qed.

Lemma terminated_items_trans n l a l1 b l2 :
  terminated_items n l a l1 ->
  terminated_items n l1 b l2 ->
  terminated_items n l (a ++ b) l2.
Proof.
  induction 1 as [l|l item s l1 more l' Hitem Hs Hrun IH]; intros Hb.
  - exact Hb.
  - simpl. eapply ti_cons; [exact Hitem | exact Hs | apply IH; exact Hb].
Qed.

(** After a run of terminated items the loop of [parseProgram] stands at
    the rest of the input with the items read so far. *)
Lemma parseProgram_reaches n l items rest :
  terminated_items n l items rest ->
  exists k,
    parseProgram l =
    parseProgram_while (S k) (parseItem (fuel_for l)) items rest.
Proof.
  intros Hrun.
  pose proof (terminated_items_length Hrun) as Hlen.
  assert (Hrun' : terminated_items (fuel_for l) l items rest)
    by (apply (terminated_items_fuel Hrun); unfold fuel_for; lia).
  exists (fuel_for l - List.length items - 1).
  unfold parseProgram, parseProgram_fuel.
  replace (fuel_for l) with
      (List.length items + S (fuel_for l - List.length items - 1)) at 1
    by (unfold fuel_for; lia).
  apply (parseProgram_while_terminated Hrun' _ []).
Qed.

Lemma parseProgram_Ok_terminated l items l' :
  parseProgram l = Ok items l' ->
  terminated_items (fuel_for l) l items [].
Proof.
  intros H. unfold parseProgram, parseProgram_fuel in H.
  apply parseProgram_while_Ok in H. destruct H as (_ & more & E & Hrun).
  simpl in E. subst more. exact Hrun.
Qed.

(** X2. Programs concatenate: when two token streams parse, their
    concatenation parses to the items of the first followed by the items
    of the second. *)
Theorem parseProgram_app l1 l2 items1 items2 r1 r2 :
  parseProgram l1 = Ok items1 r1 ->
  parseProgram l2 = Ok items2 r2 ->
  parseProgram (l1 ++ l2) = Ok (items1 ++ items2) [].
Proof.
  intros H1 H2.
  apply parseProgram_Ok_terminated in H1, H2.
  set (m := fuel_for l1 + fuel_for l2).
  assert (T1 : terminated_items m l1 items1 [])
    by (apply (terminated_items_fuel H1); unfold m, fuel_for; lia).
  assert (T2 : terminated_items m l2 items2 [])
    by (apply (terminated_items_fuel H2); unfold m, fuel_for; lia).
  assert (T : terminated_items m (l1 ++ l2) (items1 ++ items2) []).
  { eapply terminated_items_trans; [|exact T2].
    apply (terminated_items_ext l2 T1). }
  destruct (parseProgram_reaches T) as [k ->].
  apply parseProgram_while_nil.
Qed.

Lemma parseProgram_app_witness :
  parseProgram toks_terminated
  = Ok [ItemTerm (ConsTerm (TreeTerm "a" []) (TreeTerm "b" []))] []
  /\ parseProgram (toks_def_id ++ [tk semi ";"])
     = Ok [ItemDef {| name := "id"; patterns := [VarPattern "x"];
                      body := VarTerm "x" |}] []
  /\ parseProgram (toks_terminated ++ toks_def_id ++ [tk semi ";"])
     = Ok [ItemTerm (ConsTerm (TreeTerm "a" []) (TreeTerm "b" []));
           ItemDef {| name := "id"; patterns := [VarPattern "x"];
                      body := VarTerm "x" |}] [].
Proof.
  assert (H1 : parseProgram toks_terminated
               = Ok [ItemTerm (ConsTerm (TreeTerm "a" []) (TreeTerm "b" []))]
                    []) by reflexivity.
  assert (H2 : parseProgram (toks_def_id ++ [tk semi ";"])
               = Ok [ItemDef {| name := "id"; patterns := [VarPattern "x"];
                                body := VarTerm "x" |}] []) by reflexivity.
  split; [exact H1|]. split; [exact H2|].
  exact (parseProgram_app toks_terminated (toks_def_id ++ [tk semi ";"])
           H1 H2).
Defined.

(** X3. The first error ends the parse. After any run of terminated items,
    an error of the next item is the error of [parseProgram], and so is a
    token that is not a terminator after the next item; the items read
    before are not returned. *)
Theorem parseProgram_first_error n l items rest :
  terminated_items n l items rest ->
  (forall e, rest <> [] -> parseItem n rest = Throw e ->
             parseProgram l = Throw e)
  /\ (forall item t r,
        parseItem n rest = Ok item (t :: r) -> type t <> semi ->
        parseProgram l = Throw (UnexpectedToken [semi] (Some t))).
Proof.
  intros Hrun. destruct (parseProgram_reaches Hrun) as [k ->].
  pose proof (terminated_items_length Hrun) as Hlen.
  assert (Hfuel : 5 * List.length rest + 3 <= fuel_for l)
    by (unfold fuel_for; lia).
  split.
  - intros e Hne Hitem. destruct rest as [|t0 r0]; [contradiction|].
    rewrite parseProgram_while_cons. apply bind_Throw.
    eapply parseItem_fuel_independent; [exact Hfuel | exact Hitem |].
    discriminate.
  - intros item t r Hitem Ht.
    destruct (parseItem_Ok_nonempty _ _ Hitem) as (t0 & r0 & E).
    rewrite E. rewrite parseProgram_while_cons. rewrite <- E.
    assert (Hitem' : parseItem (fuel_for l) rest = Ok item (t :: r)).
    { eapply parseItem_fuel_independent;
        [exact Hfuel | exact Hitem | apply Ok_not_OutOfFuel]. }
    erewrite bind_Ok by exact Hitem'.
    unfold bind, expect.
    destruct (includes [semi] (type t)) eqn:Ei; [|reflexivity].
    apply includes_single in Ei. contradiction.
Qed.

Lemma parseProgram_first_error_witness :
  terminated_items 5 toks_bad_terminator [ItemTerm (TreeTerm "a" [])]
                   (skipn 2 toks_bad_terminator)
  /\ parseProgram toks_bad_terminator
     = Throw (UnexpectedToken [semi] (Some (tk rParen ")"))).
Proof.
  assert (Hrun : terminated_items 5 toks_bad_terminator
                   [ItemTerm (TreeTerm "a" [])]
                   (skipn 2 toks_bad_terminator)).
  { eapply ti_cons; [reflexivity | reflexivity | apply ti_nil]. }
  split; [exact Hrun|].
  destruct (parseProgram_first_error Hrun) as [_ H].
  apply (H (ItemTerm (TreeTerm "b" [])) (tk rParen ")") []);
    [reflexivity | discriminate].
Defined.

(** ** Progress: a rule that returns has consumed a token *)

Section ProgressParsers.
Context {A B : Type}.

Lemma Good1_Good (N : nat) (p : Parser A) : Good1 N p -> Good N p.
Proof.
  intros G l Hl. specialize (G l Hl).
  destruct (p l) as [a l'| |]; [|exact I|contradiction].
  destruct G as (t & c & ->). exists (t :: c). reflexivity.
Qed.

Lemma Good1_expect_bind (N : nat) (allowed : list TT)
      (k : Token -> Parser B) :
  (forall N', N = S N' -> forall t, Good N' (k t)) ->
  Good1 N (bind (expect allowed) k).
Proof.
  intros Gk l Hl. unfold bind, expect.
  destruct l as [|t l1]; [exact I|].
  destruct (includes allowed (type t)); [|exact I].
  destruct N as [|N']; [simpl in Hl; lia|].
  simpl in Hl. assert (Hl1 : List.length l1 <= N') by lia.
  specialize (Gk N' eq_refl t l1 Hl1).
  destruct (k t l1) as [b l2| |]; [|exact I|contradiction].
  destruct Gk as [pre ->]. exists t, pre. reflexivity.
Qed.

Lemma Good1_pop_bind (N : nat) (k : Token -> Parser B) :
  (forall N', N = S N' -> forall t, Good N' (k t)) ->
  Good1 N (bind pop k).
Proof.
  intros Gk l Hl. unfold bind, pop.
  destruct l as [|t l1]; [exact I|].
  destruct N as [|N']; [simpl in Hl; lia|].
  simpl in Hl. assert (Hl1 : List.length l1 <= N') by lia.
  specialize (Gk N' eq_refl t l1 Hl1).
  destruct (k t l1) as [b l2| |]; [|exact I|contradiction].
  destruct Gk as [pre ->]. exists t, pre. reflexivity.
Qed.

Lemma Good1_peek_bind (N : nat) (k : Token -> Parser B) :
  (forall N', N = S N' -> forall t, Good1 N (k t)) ->
  Good1 N (bind peek k).
Proof.
  intros Gk l Hl. unfold bind, peek.
  destruct l as [|t l1]; [exact I|].
  destruct N as [|N']; [simpl in Hl; lia|].
  apply (Gk N' eq_refl t (t :: l1) Hl).
Qed.

Lemma Good1_if (N : nat) (b : bool) (p q : Parser A) :
  Good1 N p -> Good1 N q -> Good1 N (if b then p else q).
Proof. destruct b; auto. Qed.

Lemma Good1_throw (N : nat) (e : SyntaxError) : Good1 N (@throw A e).
Proof. intros l _. exact I. Qed.

(** The first part consumes a token, the rest may not. *)
Lemma Good1_bind_l (N : nat) (m : Parser A) (k : A -> Parser B) :
  Good1 N m -> (forall a, Good N (k a)) -> Good1 N (bind m k).
Proof.
  intros Gm Gk l Hl. unfold bind. specialize (Gm l Hl).
  destruct (m l) as [a l1| |]; [|exact I|contradiction].
  destruct Gm as (t & pre & ->). simpl in Hl. rewrite length_app in Hl.
  assert (Hl1 : List.length l1 <= N) by lia.
  specialize (Gk a l1 Hl1).
  destruct (k a l1) as [b l2| |]; [|exact I|contradiction].
  destruct Gk as [pre' ->]. exists t, (pre ++ pre').
  rewrite <- app_assoc. reflexivity.
Qed.

(** The first part may consume nothing, the rest consumes a token. *)
Lemma Good1_bind_r (N : nat) (m : Parser A) (k : A -> Parser B) :
  Good N m -> (forall a, Good1 N (k a)) -> Good1 N (bind m k).
Proof.
  intros Gm Gk l Hl. unfold bind. specialize (Gm l Hl).
  destruct (m l) as [a l1| |]; [|exact I|contradiction].
  destruct Gm as (pre & ->). rewrite length_app in Hl.
  assert (Hl1 : List.length l1 <= N) by lia.
  specialize (Gk a l1 Hl1).
  destruct (k a l1) as [b l2| |]; [|exact I|contradiction].
  destruct Gk as (t & pre' & ->).
  destruct pre as [|t0 pre].
  - exists t, pre'. reflexivity.
  - exists t0, (pre ++ t :: pre'). simpl. rewrite <- app_assoc. reflexivity.
Qed.
End ProgressParsers.

Lemma parseTreePattern_Good1 n N :
  5 * N + 1 <= S n -> Good1 N (parseTreePattern (S n)).
Proof.
  intros HN.
  assert (IHP : forall N, 5 * N + 3 <= n -> Good N (parsePattern n))
    by (intros M; apply parsePattern_Good).
  rewrite parseTreePattern_S. apply Good1_expect_bind. intros N' E t.
  good_rules.
Qed.

Lemma parseVarOrAsPattern_Good1 n N :
  5 * N + 1 <= S n -> Good1 N (parseVarOrAsPattern (S n)).
Proof.
  intros HN.
  assert (IHP : forall N, 5 * N + 3 <= n -> Good N (parsePattern n))
    by (intros M; apply parsePattern_Good).
  rewrite parseVarOrAsPattern_S. apply Good1_expect_bind. intros N' E t.
  good_rules.
Qed.

Lemma parsePattern1_Good1 n N :
  5 * N + 2 <= S (S n) -> Good1 N (parsePattern1 (S (S n))).
Proof.
  intros HN.
  assert (IHP : forall N, 5 * N + 3 <= S n -> Good N (parsePattern (S n)))
    by (intros M; apply parsePattern_Good).
  rewrite parsePattern1_S. apply Good1_peek_bind. intros N' E t.
  apply Good1_if; [apply parseTreePattern_Good1; lia|].
  apply Good1_if; [apply Good1_pop_bind; intros; apply Good_ret|].
  apply Good1_if; [apply parseVarOrAsPattern_Good1; lia|].
  apply Good1_if; [apply Good1_pop_bind; intros; apply Good_ret|].
  apply Good1_if; [apply Good1_pop_bind; intros N'' E' t'; good_rules|].
  apply Good1_if; [apply Good1_pop_bind; intros N'' E' t'; good_rules|].
  apply Good1_throw.
Qed.

Lemma parsePattern_Good1 n N :
  5 * N + 3 <= S (S (S n)) -> Good1 N (parsePattern (S (S (S n)))).
Proof.
  intros HN.
  assert (IHP : forall N, 5 * N + 3 <= S (S n) ->
                          Good N (parsePattern (S (S n))))
    by (intros M; apply parsePattern_Good).
  rewrite parsePattern_S.
  apply Good1_bind_l; [apply parsePattern1_Good1; lia|].
  intros pat. good_rules.
Qed.

Lemma parseTreeOrVarOrApp_Good1 n N :
  5 * N + 1 <= S n -> Good1 N (parseTreeOrVarOrApp (S n)).
Proof.
  intros HN.
  assert (IHt : forall N, 5 * N + 3 <= n -> Good N (parseTerm n))
    by (intros M; apply parseTerm_Good).
  rewrite parseTreeOrVarOrApp_S. apply Good1_expect_bind. intros N' E t.
  good_rules.
Qed.

Lemma parseMatchTerm_Good1 n N :
  5 * N + 1 <= S n -> Good1 N (parseMatchTerm (S n)).
Proof.
  intros HN.
  assert (IHt : forall N, 5 * N + 3 <= n -> Good N (parseTerm n))
    by (intros M; apply parseTerm_Good).
  assert (IHC : forall N, 5 * N + 4 <= n -> Good N (parseMatchClause n))
    by (intros M; apply term_Good).
  rewrite parseMatchTerm_S. apply Good1_expect_bind. intros N' E t.
  good_rules.
Qed.

Lemma parseTerm1_Good1 n N :
  5 * N + 2 <= S (S n) -> Good1 N (parseTerm1 (S (S n))).
Proof.
  intros HN.
  assert (IHt : forall N, 5 * N + 3 <= S n -> Good N (parseTerm (S n)))
    by (intros M; apply parseTerm_Good).
  rewrite parseTerm1_S. apply Good1_peek_bind. intros N' E t.
  apply Good1_if; [apply parseTreeOrVarOrApp_Good1; lia|].
  apply Good1_if; [apply Good1_pop_bind; intros; apply Good_ret|].
  apply Good1_if; [apply Good1_pop_bind; intros N'' E' t'; good_rules|].
  apply Good1_if; [apply Good1_pop_bind; intros N'' E' t'; good_rules|].
  apply Good1_if; [apply parseMatchTerm_Good1; lia|].
  apply Good1_throw.
Qed.

Lemma parseTerm_Good1 n N :
  5 * N + 3 <= S (S (S n)) -> Good1 N (parseTerm (S (S (S n)))).
Proof.
  intros HN.
  assert (IHt : forall N, 5 * N + 3 <= S (S n) ->
                          Good N (parseTerm (S (S n))))
    by (intros M; apply parseTerm_Good).
  rewrite parseTerm_S.
  apply Good1_bind_l; [apply parseTerm1_Good1; lia|].
  intros term. good_rules.
Qed.

Lemma parseDef_Good1 n N : 5 * N + 3 <= n -> Good1 N (parseDef n).
Proof.
  intros HN.
  assert (IHP : forall N', 5 * N' + 3 <= n -> Good N' (parsePattern n))
    by (intros M; apply parsePattern_Good).
  assert (IHt : forall N', 5 * N' + 3 <= n -> Good N' (parseTerm n))
    by (intros M; apply parseTerm_Good).
  unfold parseDef. apply Good1_expect_bind. intros N' E t. good_rules.
Qed.

Lemma parseItem_Good1 n N :
  5 * N + 3 <= S (S (S n)) -> Good1 N (parseItem (S (S (S n)))).
Proof.
  intros HN. unfold parseItem. apply Good1_peek_bind. intros N' E t.
  apply Good1_if.
  - apply Good1_bind_l; [apply parseDef_Good1; exact HN|].
    intros d. apply Good_ret.
  - apply Good1_bind_l; [apply parseTerm_Good1; exact HN|].
    intros d. apply Good_ret.
Qed.

Lemma rule_progress {A} (f : nat -> Parser A) :
  (forall n m, n <= m -> par_le (f n) (f m)) ->
  (forall n N, 5 * N + 3 <= S (S (S n)) -> Good1 N (f (S (S (S n))))) ->
  forall n l a l',
    f n l = Ok a l' -> exists t consumed, l = t :: consumed ++ l'.
Proof.
  intros Hmono Hgood n l a l' H.
  set (m := S (S (S (n + 5 * List.length l)))).
  assert (E : f m l = Ok a l').
  { eapply par_le_eq;
      [apply (Hmono n m); unfold m; lia | exact H | apply Ok_not_OutOfFuel]. }
  assert (G : Good1 (List.length l) (f m))
    by (apply Hgood; lia).
  specialize (G l (le_n _)). rewrite E in G. exact G.
Qed.

(** X4. Every exported rule that returns has consumed at least one token:
    the cursor it leaves is a proper suffix of the cursor it got. *)
Theorem rules_consume_a_token n l :
  (forall t l', parseTerm n l = Ok t l' ->
                exists tok consumed, l = tok :: consumed ++ l')
  /\ (forall p l', parsePattern n l = Ok p l' ->
                   exists tok consumed, l = tok :: consumed ++ l')
  /\ (forall d l', parseDef n l = Ok d l' ->
                   exists tok consumed, l = tok :: consumed ++ l')
  /\ (forall item l', parseItem n l = Ok item l' ->
                      exists tok consumed, l = tok :: consumed ++ l').
Proof.
  split; [|split; [|split]].
  - intros t l'. apply (rule_progress parseTerm).
    + intros; apply parseTerm_fuel_le; assumption.
    + intros; apply parseTerm_Good1; assumption.
  - intros p l'. apply (rule_progress parsePattern).
    + intros; apply parsePattern_fuel_le; assumption.
    + intros; apply parsePattern_Good1; assumption.
  - intros d l'. apply (rule_progress parseDef).
    + intros; apply parseDef_fuel_le; assumption.
    + intros; apply parseDef_Good1; assumption.
  - intros item l'. apply (rule_progress parseItem).
    + intros; apply parseItem_fuel_le; assumption.
    + intros; apply parseItem_Good1; assumption.
Qed.

Lemma terminated_items_count n l items l' :
  terminated_items n l items l' ->
  2 * List.length items + List.length l' <= List.length l.
Proof.
  induction 1 as [l|l item s l1 more l' Hitem Hs Hrun IH]; [simpl; lia|].
  assert (Hp : exists t consumed, l = t :: consumed ++ s :: l1).
  { eapply (rule_progress parseItem); [| |exact Hitem].
    - intros; apply parseItem_fuel_le; assumption.
    - intros; apply parseItem_Good1; assumption. }
  destruct Hp as (t & consumed & ->).
  simpl. rewrite length_app. simpl. lia.
Qed.

(** X5. Every item takes at least two tokens, the terminator included: a
    program of [k] items has at least [2 * k] tokens, and [parseProgram]
    returns no items exactly on the empty input. *)
Theorem parseProgram_item_count l items l' :
  parseProgram l = Ok items l' ->
  2 * List.length items <= List.length l /\ (items = [] <-> l = []).
Proof.
  intros H. apply parseProgram_Ok_terminated in H.
  pose proof (terminated_items_count H) as Hc. simpl in Hc.
  split; [lia|]. split.
  - intros ->. inversion H. reflexivity.
  - intros ->. simpl in Hc. destruct items; [reflexivity | simpl in Hc; lia].
Qed.

Lemma parseProgram_item_count_witness :
  parseProgram toks_terminated
  = Ok [ItemTerm (ConsTerm (TreeTerm "a" []) (TreeTerm "b" []))] []
  /\ 2 * 1 <= List.length toks_terminated.
Proof.
  assert (H : parseProgram toks_terminated
              = Ok [ItemTerm (ConsTerm (TreeTerm "a" []) (TreeTerm "b" []))]
                   []) by reflexivity.
  split; [exact H|].
  apply (parseProgram_item_count toks_terminated H).
Defined.

(** ** What a returned comma-separated list was read from *)

Section CommaSepInversion.
Context {T : Type}.
Variable parseElt : Parser T.
Variable stopSet : list TT.

Lemma parseCommaSep_while_inv fuel :
  forall elts l xs l',
    parseCommaSep_while fuel parseElt stopSet elts l = Ok xs l' ->
    exists more l2,
      sep_elts parseElt stopSet l more l2 /\ xs = elts ++ more /\
      ((l' = l2 /\ at_stop stopSet l2 = true) \/
       (exists c, l2 = c :: l' /\ type c = comma /\
                  includes stopSet (type c) = false /\
                  at_stop stopSet l' = true)).
Proof.
  induction fuel as [|fuel IH]; intros elts l xs l' H; [discriminate|].
  simpl in H. unfold bind in H.
  destruct l as [|tok l1]; simpl in H.
  - inversion H; subst. exists [], []. rewrite app_nil_r.
    split; [apply sep_nil|]. split; [reflexivity|]. left. auto.
  - destruct (includes stopSet (type tok)) eqn:Estop.
    + inversion H; subst. exists [], (tok :: l1). rewrite app_nil_r.
      split; [apply sep_nil|]. split; [reflexivity|]. left. auto.
    + unfold expect in H.
      destruct (includes [comma] (type tok)) eqn:Ec; [|discriminate].
      apply includes_single in Ec.
      rewrite exhaustedOrStop_eq in H.
      destruct (at_stop stopSet l1) eqn:E1.
      * inversion H; subst. exists [], (tok :: l'). rewrite app_nil_r.
        split; [apply sep_nil|]. split; [reflexivity|]. right.
        exists tok. auto.
      * destruct (parseElt l1) as [x l2| |] eqn:Ex; try discriminate.
        apply IH in H. destruct H as (more & l3 & Hrun & -> & Hend).
        exists (x :: more), l3. rewrite <- app_assoc.
        split; [|split; [reflexivity | exact Hend]].
        eapply sep_cons; eassumption.
Qed.

(** X6. What [parseCommaSep] returns is what it read, in order: the empty
    sequence only at a stop token or at the end of the input, and else a
    first element followed by a run of [, element] pairs, the cursor left
    in front of a stop token or at the end of the input, after at most one
    trailing comma. *)
Theorem parseCommaSep_inversion fuel l xs l' :
  parseCommaSep fuel parseElt stopSet l = Ok xs l' ->
  (at_stop stopSet l = true /\ xs = [] /\ l' = l)
  \/ (at_stop stopSet l = false /\
      exists x l1 more l2,
        parseElt l = Ok x l1 /\
        sep_elts parseElt stopSet l1 more l2 /\
        xs = x :: more /\
        ((l' = l2 /\ at_stop stopSet l2 = true) \/
         (exists c, l2 = c :: l' /\ type c = comma /\
                    includes stopSet (type c) = false /\
                    at_stop stopSet l' = true))).
Proof.
  intros H. destruct (at_stop stopSet l) eqn:E.
  - left. rewrite parseCommaSep_at_stop in H by exact E.
    inversion H; subst. auto.
  - right. split; [reflexivity|].
    rewrite parseCommaSep_not_at_stop in H by exact E.
    apply bind_Ok_inv in H. destruct H as (x & l1 & Hx & H).
    apply parseCommaSep_while_inv in H.
    destruct H as (more & l2 & Hrun & -> & Hend).
    exists x, l1, more, l2. auto.
Qed.
End CommaSepInversion.

Lemma parseCommaSep_inversion_witness :
  parseCommaSep 6 (parseTerm 6) [rParen] toks_trailing_comma
  = Ok [TreeTerm "a" []; TreeTerm "b" []] [tk rParen ")"]
  /\ at_stop [rParen] toks_trailing_comma = false.
Proof.
  assert (H : parseCommaSep 6 (parseTerm 6) [rParen] toks_trailing_comma
              = Ok [TreeTerm "a" []; TreeTerm "b" []] [tk rParen ")"])
    by reflexivity.
  split; [exact H|].
  destruct (@parseCommaSep_inversion _ (parseTerm 6) [rParen] 6
              toks_trailing_comma _ _ H) as [(E & _)|(E & _)];
    [discriminate E | exact E].
Defined.

(** ** Where the [:] rules stop, and what cannot start a term or a pattern *)

(** X7. [parseTerm] and [parsePattern] take every [:] they can: when they
    return, the next token is not [:]. *)
Theorem cons_rules_take_every_colon n l :
  (forall t l', parseTerm n l = Ok t l' -> next_is colon l' = false)
  /\ (forall p l', parsePattern n l = Ok p l' -> next_is colon l' = false).
Proof.
  split.
  - intros t l'. apply parseTerm_Ok_no_colon.
  - intros p l'. apply parsePattern_Ok_no_colon.
Qed.

Lemma parseTerm1_not_start n t rest :
  includes term_starts (type t) = false ->
  parseTerm1 (S n) (t :: rest) = Throw ExpectedATerm.
Proof.
  intros H. rewrite parseTerm1_S. unfold bind, peek.
  destruct (type t); simpl in H; try discriminate H; reflexivity.
Qed.

Lemma parsePattern1_not_start n t rest :
  includes pattern_starts (type t) = false ->
  parsePattern1 (S n) (t :: rest) = Throw ExpectedAPattern.
Proof.
  intros H. rewrite parsePattern1_S. unfold bind, peek.
  destruct (type t); simpl in H; try discriminate H; reflexivity.
Qed.

(** X8. A token that cannot start a term makes [parseTerm1] and [parseTerm]
    throw "expected a term", and one that cannot start a pattern makes
    [parsePattern1] and [parsePattern] throw "expected a pattern"; so what
    [parseTerm] or [parsePattern] accepts starts with one of the seven
    kinds its dispatch knows ([_] and [let] start no term, [match] and
    [let] no pattern). On the exhausted input the four rules raise the
    error of the cursor. *)
Theorem dispatch_errors n :
  (forall t rest,
      includes term_starts (type t) = false ->
      parseTerm1 (S n) (t :: rest) = Throw ExpectedATerm
      /\ parseTerm (S (S n)) (t :: rest) = Throw ExpectedATerm)
  /\ (forall t rest,
        includes pattern_starts (type t) = false ->
        parsePattern1 (S n) (t :: rest) = Throw ExpectedAPattern
        /\ parsePattern (S (S n)) (t :: rest) = Throw ExpectedAPattern)
  /\ (forall t rest a l',
        parseTerm n (t :: rest) = Ok a l' ->
        includes term_starts (type t) = true)
  /\ (forall t rest a l',
        parsePattern n (t :: rest) = Ok a l' ->
        includes pattern_starts (type t) = true)
  /\ parseTerm1 (S n) [] = Throw (UnexpectedToken [] None)
  /\ parseTerm (S (S n)) [] = Throw (UnexpectedToken [] None)
  /\ parsePattern1 (S n) [] = Throw (UnexpectedToken [] None)
  /\ parsePattern (S (S n)) [] = Throw (UnexpectedToken [] None).
Proof.
  assert (HT : forall k t rest,
             includes term_starts (type t) = false ->
             parseTerm (S (S k)) (t :: rest) = Throw ExpectedATerm).
  { intros k t rest H. rewrite parseTerm_S. apply bind_Throw.
    apply parseTerm1_not_start. exact H. }
  assert (HP : forall k t rest,
             includes pattern_starts (type t) = false ->
             parsePattern (S (S k)) (t :: rest) = Throw ExpectedAPattern).
  { intros k t rest H. rewrite parsePattern_S. apply bind_Throw.
    apply parsePattern1_not_start. exact H. }
  split; [|split; [|split; [|split]]].
  - intros t rest H. split; [apply parseTerm1_not_start; exact H|].
    apply HT. exact H.
  - intros t rest H. split; [apply parsePattern1_not_start; exact H|].
    apply HP. exact H.
  - intros t rest a l' H.
    destruct (includes term_starts (type t)) eqn:E; [reflexivity|].
    destruct n as [|[|k]]; [discriminate H | discriminate H |].
    rewrite (HT k t rest E) in H. discriminate H.
  - intros t rest a l' H.
    destruct (includes pattern_starts (type t)) eqn:E; [reflexivity|].
    destruct n as [|[|k]]; [discriminate H | discriminate H |].
    rewrite (HP k t rest E) in H. discriminate H.
  - repeat split.
Qed.

(** ** Parentheses *)



Lemma expect_single_neq ty x rest :
  type x <> ty ->
  expect [ty] (x :: rest) = Throw (UnexpectedToken [ty] (Some x)).
Proof.
  intros H. unfold expect.
  destruct (includes [ty] (type x)) eqn:E; [|reflexivity].
  apply includes_single in E. contradiction.
Qed.

Lemma expect_single_eq ty x rest :
  type x = ty -> expect [ty] (x :: rest) = Ok x rest.
Proof.
  intros H. unfold expect, includes. simpl. rewrite H, TT_beq_refl.
  reflexivity.
Qed.



(** X10. An atom followed by the empty list [( )] is the atom alone: both
    give the tree node with no children, as a term and as a pattern. *)
Theorem atom_empty_parens n start lp rp rest :
  includes [bareAtom; quotedAtom] (type start) = true ->
  type lp = lParen -> type rp = rParen ->
  parseTreeOrVarOrApp (S n) (start :: lp :: rp :: rest)
    = Ok (TreeTerm (start_text start) []) rest
  /\ parseTreePattern (S n) (start :: lp :: rp :: rest)
    = Ok (TreePattern (start_text start) []) rest
  /\ (next_is lParen rest = false ->
      parseTreeOrVarOrApp (S n) (start :: lp :: rp :: rest)
        = parseTreeOrVarOrApp (S n) (start :: rest)
      /\ parseTreePattern (S n) (start :: lp :: rp :: rest)
        = parseTreePattern (S n) (start :: rest)).
Proof.
  intros Hatom Hlp Hrp. destruct (atom_not_ident _ Hatom) as [Hni Hin].
  assert (Hnext : next_is lParen (lp :: rp :: rest) = true)
    by (simpl; rewrite Hlp; reflexivity).
  assert (Hstop : at_stop [rParen] (rp :: rest) = true)
    by (simpl; rewrite Hrp; reflexivity).
  assert (H1 : parseTreeOrVarOrApp (S n) (start :: lp :: rp :: rest)
               = Ok (TreeTerm (start_text start) []) rest).
  { rewrite parseTreeOrVarOrApp_S. unfold bind at 1. unfold expect at 1.
    rewrite Hin.
    rewrite (opt_paren_list n (parseTerm n)
               (fun terms =>
                  if TT_beq (type start) ident
                  then if Nat.ltb 0 (List.length terms)
                       then ret (AppTerm (start_text start) terms)
                       else ret (VarTerm (start_text start))
                  else ret (TreeTerm (start_text start) terms))).
    rewrite Hnext. unfold bind at 1. simpl pop. unfold bind at 1.
    rewrite parseCommaSep_at_stop by exact Hstop.
    unfold bind at 1. rewrite expect_single_eq by exact Hrp.
    rewrite Hni. reflexivity. }
  assert (H2 : parseTreePattern (S n) (start :: lp :: rp :: rest)
               = Ok (TreePattern (start_text start) []) rest).
  { rewrite parseTreePattern_S. unfold bind at 1. unfold expect at 1.
    rewrite Hatom.
    rewrite (opt_paren_list n (parsePattern n)
               (fun children =>
                  ret (TreePattern (start_text start) children))).
    rewrite Hnext. unfold bind at 1. simpl pop. unfold bind at 1.
    rewrite parseCommaSep_at_stop by exact Hstop.
    unfold bind at 1. rewrite expect_single_eq by exact Hrp.
    reflexivity. }
  split; [exact H1|]. split; [exact H2|].
  intros Hn. rewrite H1, H2. split; symmetry.
  - rewrite parseTreeOrVarOrApp_S. unfold bind at 1. unfold expect.
    rewrite Hin.
    rewrite (opt_paren_list n (parseTerm n)
               (fun terms =>
                  if TT_beq (type start) ident
                  then if Nat.ltb 0 (List.length terms)
                       then ret (AppTerm (start_text start) terms)
                       else ret (VarTerm (start_text start))
                  else ret (TreeTerm (start_text start) terms))).
    rewrite Hn, Hni. reflexivity.
  - rewrite parseTreePattern_S. unfold bind at 1. unfold expect.
    rewrite Hatom.
    rewrite (opt_paren_list n (parsePattern n)
               (fun children =>
                  ret (TreePattern (start_text start) children))).
    rewrite Hn. reflexivity.
Qed.

Lemma atom_empty_parens_witness :
  includes [bareAtom; quotedAtom] (type (tk bareAtom "nil")) = true
  /\ parseTreeOrVarOrApp 1
       [tk bareAtom "nil"; tk lParen "("; tk rParen ")"; tk semi ";"]
     = Ok (TreeTerm "nil" []) [tk semi ";"].
Proof.
  split; [reflexivity|].
  apply (@atom_empty_parens 0 (tk bareAtom "nil") (tk lParen "(")
           (tk rParen ")") [tk semi ";"]); reflexivity.
Defined.

(** ** Patterns have no application form *)

Lemma parsePattern_ident_paren n f lp rest :
  type f = ident -> type lp = lParen ->
  parsePattern (S (S (S n))) (f :: lp :: rest)
  = Ok (VarPattern (text f)) (lp :: rest).
Proof.
  intros Hf Hlp. rewrite parsePattern_S.
  assert (H1 : parsePattern1 (S (S n)) (f :: lp :: rest)
               = Ok (VarPattern (text f)) (lp :: rest)).
  { rewrite parsePattern1_ident by exact Hf.
    rewrite parseVarOrAsPattern_S. unfold bind at 1.
    rewrite expect_single_eq by exact Hf.
    unfold bind at 1. rewrite hasMoreAndPeekIs_eq. unfold next_is.
    rewrite Hlp. reflexivity. }
  erewrite bind_Ok by exact H1.
  apply cons_while_no_colon. unfold next_is. rewrite Hlp. reflexivity.
Qed.

(** X11. A pattern has no application form: on an identifier followed by
    [(], [parsePattern] returns the variable and leaves the [(], so in a
    comma-separated pattern list the [(] is refused where a comma is
    wanted, and a definition whose parameter is written as a call
    raises that error. *)
Theorem pattern_ident_call_rejected n f lp rest :
  type f = ident -> type lp = lParen ->
  parsePattern (S (S (S n))) (f :: lp :: rest)
    = Ok (VarPattern (text f)) (lp :: rest)
  /\ (forall k stopSet,
        includes stopSet ident = false -> includes stopSet lParen = false ->
        parseCommaSep (S k) (parsePattern (S (S (S n)))) stopSet
                      (f :: lp :: rest)
        = Throw (UnexpectedToken [comma] (Some lp)))
  /\ (forall letTok g lp0,
        type letTok = letKw -> type g = ident -> type lp0 = lParen ->
        parseDef (S (S (S n))) (letTok :: g :: lp0 :: f :: lp :: rest)
        = Throw (UnexpectedToken [comma] (Some lp))).
Proof.
  intros Hf Hlp.
  pose proof (@parsePattern_ident_paren n f lp rest Hf Hlp) as HP.
  assert (Hlist : forall k stopSet,
             includes stopSet ident = false ->
             includes stopSet lParen = false ->
             parseCommaSep (S k) (parsePattern (S (S (S n)))) stopSet
                           (f :: lp :: rest)
             = Throw (UnexpectedToken [comma] (Some lp))).
  { intros k stopSet Hi Hl.
    rewrite parseCommaSep_not_at_stop by (simpl; rewrite Hf; exact Hi).
    erewrite bind_Ok by exact HP.
    simpl. unfold bind at 1 2. simpl. rewrite Hlp, Hl.
    unfold bind at 1. rewrite expect_single_neq; [reflexivity|].
    rewrite Hlp. discriminate. }
  split; [exact HP|]. split; [exact Hlist|].
  intros letTok g lp0 Hlet Hg Hlp0.
  rewrite parseDef_eq by assumption. cbv zeta.
  unfold next_is. rewrite Hlp0. simpl.
  unfold bind at 1. simpl pop. apply bind_Throw.
  apply Hlist; reflexivity.
Qed.

Lemma pattern_ident_call_rejected_witness :
  type (tk ident "f") = ident
  /\ type (tk lParen "(") = lParen
  /\ parseDef 3 toks_def_nested_call
     = Throw (UnexpectedToken [comma] (Some (tk lParen "("))).
Proof.
  split; [reflexivity|]. split; [reflexivity|].
  destruct (@pattern_ident_call_rejected 0 (tk ident "f") (tk lParen "(")
              (skipn 5 toks_def_nested_call) eq_refl eq_refl)
    as (_ & _ & H).
  apply (H (tk letKw "let") (tk ident "g") (tk lParen "(")); reflexivity.
Defined.

(** ** Match clauses and definition headers *)

Lemma parseMatchClause_no_pattern n a rest :
  type a = arrow ->
  parseMatchClause (S n) (a :: rest)
  = (body_ <- parseTerm n ;; ret (mkMatchClause [] body_)) rest.
Proof.
  intros Ha. rewrite parseMatchClause_S. unfold bind at 1.
  rewrite parseCommaSep_at_stop by (simpl; rewrite Ha; reflexivity).
  unfold bind at 1. rewrite expect_single_eq by exact Ha. reflexivity.
Qed.

(** X12. The number of patterns of a match clause is not compared with the
    number of subjects, and it may be zero: whatever subjects are read
    before the [{], a clause [=> body] with no pattern is accepted and the
    match term has that clause with the empty pattern list. *)
Theorem match_clause_arity_unchecked n m_ l1 terms lc a l2 body_ rc rest :
  type m_ = matchKw -> type lc = lCurly -> type a = arrow ->
  type rc = rCurly ->
  parseCommaSep n (parseTerm n) [lCurly] l1 = Ok terms (lc :: a :: l2) ->
  parseTerm n l2 = Ok body_ (rc :: rest) ->
  parseMatchTerm (S (S n)) (m_ :: l1)
  = Ok (MatchTerm terms [mkMatchClause [] body_]) rest.
Proof.
  intros Hm Hlc Ha Hrc Hterms Hbody.
  assert (Hterms' : parseCommaSep (S n) (parseTerm (S n)) [lCurly] l1
                    = Ok terms (lc :: a :: l2)).
  { eapply par_le_eq; [|exact Hterms|apply Ok_not_OutOfFuel].
    apply parseCommaSep_le; [apply parseTerm_fuel_le|]; lia. }
  assert (Hclause : parseMatchClause (S n) (a :: l2)
                    = Ok (mkMatchClause [] body_) (rc :: rest)).
  { rewrite parseMatchClause_no_pattern by exact Ha.
    erewrite bind_Ok by exact Hbody. reflexivity. }
  assert (Hclauses : parseCommaSep (S n) (parseMatchClause (S n)) [rCurly]
                                   (a :: l2)
                     = Ok [mkMatchClause [] body_] (rc :: rest)).
  { rewrite parseCommaSep_not_at_stop by (simpl; rewrite Ha; reflexivity).
    erewrite bind_Ok by exact Hclause.
    apply parseCommaSep_while_at_stop. simpl. rewrite Hrc. reflexivity. }
  rewrite parseMatchTerm_S. unfold bind at 1.
  rewrite expect_single_eq by exact Hm.
  erewrite bind_Ok by exact Hterms'.
  unfold bind at 1. rewrite expect_single_eq by exact Hlc.
  erewrite bind_Ok by exact Hclauses.
  unfold bind at 1. rewrite expect_single_eq by exact Hrc. reflexivity.
Qed.

Lemma match_clause_arity_unchecked_witness :
  parseCommaSep 4 (parseTerm 4) [lCurly]
    [tk ident "x"; tk comma ","; tk ident "z"; tk lCurly "{";
     tk arrow "=>"; tk ident "y"; tk rCurly "}"]
  = Ok [VarTerm "x"; VarTerm "z"]
       [tk lCurly "{"; tk arrow "=>"; tk ident "y"; tk rCurly "}"]
  /\ parseMatchTerm 6
       [tk matchKw "match"; tk ident "x"; tk comma ","; tk ident "z";
        tk lCurly "{"; tk arrow "=>"; tk ident "y"; tk rCurly "}"]
     = Ok (MatchTerm [VarTerm "x"; VarTerm "z"]
                     [mkMatchClause [] (VarTerm "y")]) [].
Proof.
  split; [reflexivity|].
  apply (@match_clause_arity_unchecked 4 (tk matchKw "match")
           [tk ident "x"; tk comma ","; tk ident "z"; tk lCurly "{";
            tk arrow "=>"; tk ident "y"; tk rCurly "}"]
           [VarTerm "x"; VarTerm "z"] (tk lCurly "{") (tk arrow "=>")
           [tk ident "y"; tk rCurly "}"] (VarTerm "y") (tk rCurly "}") []);
    reflexivity.
Defined.

Lemma parseItem_let n letTok rest :
  type letTok = letKw ->
  parseItem n (letTok :: rest) =
  (d <- parseDef n ;; ret (ItemDef d)) (letTok :: rest).
Proof.
  intros H. unfold parseItem at 1. unfold bind at 1. unfold peek.
  rewrite H. reflexivity.
Qed.

(** X13. An item that starts with [let] is a definition or an error, never
    a term: the token after [let] must be an identifier (an atom is
    refused), and after the name, when no [(] follows, the next token
    must be [=]; each failure is the error of [expect], at the offending
    token or at the end of the input. *)
Theorem let_header_errors n letTok :
  type letTok = letKw ->
  parseItem n [letTok] = Throw (UnexpectedToken [ident] None)
  /\ (forall t rest,
        type t <> ident ->
        parseItem n (letTok :: t :: rest)
        = Throw (UnexpectedToken [ident] (Some t)))
  /\ (forall nameTok,
        type nameTok = ident ->
        parseItem n [letTok; nameTok] = Throw (UnexpectedToken [eq_] None))
  /\ (forall nameTok t rest,
        type nameTok = ident -> type t <> lParen -> type t <> eq_ ->
        parseItem n (letTok :: nameTok :: t :: rest)
        = Throw (UnexpectedToken [eq_] (Some t)))
  /\ (forall rest t l',
        parseItem n (letTok :: rest) <> Ok (ItemTerm t) l').
Proof.
  intros Hlet.
  assert (Hdef : forall rest e,
             parseDef n (letTok :: rest) = Throw e ->
             parseItem n (letTok :: rest) = Throw e).
  { intros rest e H. rewrite parseItem_let by exact Hlet.
    apply bind_Throw. exact H. }
  split; [|split; [|split; [|split]]].
  - apply Hdef. unfold parseDef. unfold bind at 1.
    rewrite expect_single_eq by exact Hlet. reflexivity.
  - intros t rest Ht. apply Hdef. unfold parseDef. unfold bind at 1.
    rewrite expect_single_eq by exact Hlet. unfold bind at 1.
    rewrite expect_single_neq by exact Ht. reflexivity.
  - intros nameTok Hn. apply Hdef.
    rewrite parseDef_eq by assumption. reflexivity.
  - intros nameTok t rest Hn Hp He. apply Hdef.
    rewrite parseDef_eq by assumption. cbv zeta.
    assert (E : next_is lParen (t :: rest) = false).
    { unfold next_is. destruct (TT_beq (type t) lParen) eqn:E;
        [|reflexivity]. apply TT_beq_eq in E. contradiction. }
    rewrite E. unfold bind at 1.
    rewrite expect_single_neq by exact He. reflexivity.
  - intros rest t l' H. rewrite parseItem_let in H by exact Hlet.
    apply bind_Ok_inv in H. destruct H as (d & l1 & _ & H).
    discriminate H.
Qed.

Lemma let_header_errors_witness :
  type (tk letKw "let") = letKw
  /\ parseItem 9 [tk letKw "let"; tk bareAtom "nil"; tk eq_ "=";
                  tk ident "x"]
     = Throw (UnexpectedToken [ident] (Some (tk bareAtom "nil"))).
Proof.
  split; [reflexivity|].
  destruct (@let_header_errors 9 (tk letKw "let") eq_refl) as (_ & H & _).
  apply H. discriminate.
Defined.

(** ** String unescaping: lengths and short texts *)

Lemma replaceEscaped_length_le (q : ascii) (s : string) :
  String.length (replaceEscaped q s) <= String.length s
  /\ forall c, String.length (replaceEscaped q (String c s))
               <= S (String.length s).
Proof.
  induction s as [|d s' [IH1 IH2]].
  - split; [apply le_n | intros c; apply le_n].
  - split; [apply IH2|]. intros c.
    change (replaceEscaped q (String c (String d s')))
      with (if (Ascii.eqb c backslash && Ascii.eqb d q)%bool
            then String q (replaceEscaped q s')
            else String c (replaceEscaped q (String d s'))).
    destruct (Ascii.eqb c backslash && Ascii.eqb d q)%bool.
    + simpl String.length. lia.
    + specialize (IH2 d). simpl String.length in *. lia.
Qed.

Lemma replaceEscaped_length_lt (q : ascii) (s : string) :
  (exists s1 s2, s = (s1 ++ String backslash (String q s2))%string) ->
  String.length (replaceEscaped q s) < String.length s.
Proof.
  induction s as [|c rest IH]; intros (s1 & s2 & E).
  - destruct s1; discriminate E.
  - destruct rest as [|d rest'].
    + destruct s1 as [|a [|b s1']]; discriminate E.
    + change (replaceEscaped q (String c (String d rest')))
        with (if (Ascii.eqb c backslash && Ascii.eqb d q)%bool
              then String q (replaceEscaped q rest')
              else String c (replaceEscaped q (String d rest'))).
      destruct (Ascii.eqb c backslash && Ascii.eqb d q)%bool eqn:Em.
      * pose proof (proj1 (replaceEscaped_length_le q rest')).
        simpl String.length. lia.
      * assert (Hocc : exists s1' s2',
                   String d rest'
                   = (s1' ++ String backslash (String q s2'))%string).
        { destruct s1 as [|a s1'].
          - simpl in E. inversion E; subst.
            rewrite !Ascii.eqb_refl in Em. discriminate Em.
          - simpl in E. inversion E as [[E1 E2]]. exists s1', s2. exact E2. }
        specialize (IH Hocc). simpl String.length in *. lia.
Qed.

(** X14. Unescaping never lengthens: the text [getStringText] returns is at
    most as long as the body between the two surrounding characters, and
    it is the body itself exactly when the body has no escape of the
    opening quote; a raw text of one character is returned whole, and the
    empty text gives the empty text. *)
Theorem getStringText_lengths (c c' : ascii) (body : string) :
  String.length
    (getStringText (String c (body ++ String c' EmptyString)%string))
  <= String.length body
  /\ (getStringText (String c (body ++ String c' EmptyString)%string) = body
      <-> forall s1 s2,
          body <> (s1 ++ String backslash (String (quote_of c) s2))%string)
  /\ getStringText (String c EmptyString) = String c EmptyString
  /\ getStringText EmptyString = EmptyString.
Proof.
  rewrite getStringText_strip. split; [|split; [|split]].
  - apply replaceEscaped_length_le.
  - split.
    + intros E s1 s2 Hocc.
      assert (Hlt : String.length (replaceEscaped (quote_of c) body)
                    < String.length body)
        by (apply replaceEscaped_length_lt; exists s1, s2; exact Hocc).
      rewrite E in Hlt. lia.
    + apply replaceEscaped_none.
  - unfold getStringText. rewrite startsWith_squote.
    change (js_substring (String c EmptyString) 1
              (Z.of_nat (String.length (String c EmptyString)) - 1))
      with (String c EmptyString).
    destruct (Ascii.eqb c squote); reflexivity.
  - reflexivity.
Qed.
